(** * DeepRecall: indexing and vector retrieval core

    A shallow embedding of the Go sources of DeepRecall
    (internal/services/retriever, internal/services/context,
    internal/services/orchestrator) and the properties of its
    specification that were checked against it.

    Conventions.
    - Go [int] is modelled by [Z]; a slice expression out of range is a
      [Panic].
    - Go [float32]/[float64] are modelled by the IEEE 754 binary32 and
      binary64 formats of [SpecFloat], rounding to nearest even.
    - A Go [map] is a [gmap]; ranging over a map visits its entries in an
      order the language leaves unspecified, so every function that ranges
      over a map takes the visiting order as an argument.
    - A [string] used as a key, path or identifier is a [string]; document
      text is a list of code points ([rune]). *)

From Stdlib Require Import ZArith List Bool Lia Lra.
From Stdlib Require Import Reals.
From Stdlib Require Import Floats.SpecFloat.
From Stdlib Require Import Strings.Ascii Strings.String.
From Stdlib Require Import Sorting.Permutation Sorting.Sorted.
From stdpp Require Import base option list gmap strings pretty.

Open Scope Z_scope.

(** ** Outcomes of a call *)

(** A Go call returns normally (with a value and possibly an [error]),
    or panics. *)
Inductive outcome (A : Type) : Type :=
| Ok (a : A)
| Err (msg : string)
| Panic.
Arguments Ok {A} a.
Arguments Err {A} msg.
Arguments Panic {A}.

Definition is_Ok {A} (o : outcome A) : bool :=
  match o with Ok _ => true | _ => false end.

Definition is_Err {A} (o : outcome A) : bool :=
  match o with Err _ => true | _ => false end.

(** ** Floating point *)

Module Float.

Definition f32 := spec_float.
Definition f64 := spec_float.

Definition prec32 : Z := 24.
Definition emax32 : Z := 128.
Definition prec64 : Z := 53.
Definition emax64 : Z := 1024.

(** [a * b] on float32 operands. *)
Definition mul32 (x y : f32) : f32 := SFmul prec32 emax32 x y.

(** The conversion [float64(x)] of a float32: exact, the result is put
    in the canonical form of binary64. *)
Definition to64 (x : f32) : f64 :=
  match x with
  | S754_finite s m e =>
      binary_normalize prec64 emax64 (cond_Zopp s (Zpos m)) e s
  | _ => x
  end.

Definition zero : f64 := S754_zero false.
Definition add (x y : f64) : f64 := SFadd prec64 emax64 x y.
Definition mul (x y : f64) : f64 := SFmul prec64 emax64 x y.
Definition div (x y : f64) : f64 := SFdiv prec64 emax64 x y.
Definition sqrt (x : f64) : f64 := SFsqrt prec64 emax64 x.

(** [x == y], [x > y], [x >= y]: false as soon as one side is NaN. *)
Definition eqb (x y : f64) : bool := SFeqb x y.
Definition gtb (x y : f64) : bool := SFltb y x.
Definition geb (x y : f64) : bool := SFleb y x.

Definition is_nan (x : spec_float) : bool :=
  match x with S754_nan => true | _ => false end.

(** Literals: the float32 / float64 nearest to [m * 2^e]. *)
Definition lit32 (m e : Z) : f32 := binary_normalize prec32 emax32 m e false.
Definition lit64 (m e : Z) : f64 := binary_normalize prec64 emax64 m e false.


End Float.

(** ** Cosine similarity (retriever/vectorstore.go) *)

(** The arithmetic [cosineSimilarity] is written with: float32 products,
    widened to float64 and accumulated there. *)
Class Arith (F32 F64 : Type) := {
  a_mul32 : F32 -> F32 -> F32;
  a_to64 : F32 -> F64;
  a_zero : F64;
  a_add : F64 -> F64 -> F64;
  a_mul : F64 -> F64 -> F64;
  a_div : F64 -> F64 -> F64;
  a_sqrt : F64 -> F64;
  a_eqb : F64 -> F64 -> bool
}.

#[global] Instance float_arith : Arith Float.f32 Float.f64 := {|
  a_mul32 := Float.mul32;
  a_to64 := Float.to64;
  a_zero := Float.zero;
  a_add := Float.add;
  a_mul := Float.mul;
  a_div := Float.div;
  a_sqrt := Float.sqrt;
  a_eqb := Float.eqb
|}.



Section Cosine.
Context {F32 F64 : Type} {A : Arith F32 F64}.

(** The accumulators [dotProduct, normA, normB] after one index. *)
Definition cos_step (acc : F64 * F64 * F64) (xy : F32 * F32) : F64 * F64 * F64 :=
  let '(dot, na, nb) := acc in
  let '(x, y) := xy in
  (a_add dot (a_to64 (a_mul32 x y)),
   a_add na (a_to64 (a_mul32 x x)),
   a_add nb (a_to64 (a_mul32 y y))).

Definition cos_sums (a b : list F32) : F64 * F64 * F64 :=
  fold_left cos_step (combine a b) (a_zero, a_zero, a_zero).

Definition cosineSimilarity (a b : list F32) : F64 :=
  if negb (Nat.eqb (length a) (length b)) then a_zero
  else
    let '(dot, na, nb) := cos_sums a b in
    if a_eqb na a_zero || a_eqb nb a_zero then a_zero
    else a_div dot (a_mul (a_sqrt na) (a_sqrt nb)).

End Cosine.

Definition cosineSimilarityF : list Float.f32 -> list Float.f32 -> Float.f64 :=
  @cosineSimilarity _ _ float_arith.


(** ** Data model (internal/models) *)

(** A code point. *)
Definition rune := Z.

(** Values held by the untyped [Metadata] map of a chunk. *)
Inductive MetaVal : Type :=
| MStr (s : string)
| MInt (n : Z).

Record Document : Type := mkDocument {
  doc_ID : string;
  doc_FilePath : string;
  doc_Content : list rune;
  doc_Metadata : gmap string string;
  doc_Hash : string;
  doc_FileModTime : Z
}.

Record Chunk : Type := mkChunk {
  ID : string;
  DocumentID : string;
  Content : list rune;
  Embedding : list Float.f32;
  Metadata : gmap string MetaVal;
  Index : Z
}.

Record RetrievalResult : Type := mkResult {
  r_Chunk : Chunk;
  r_Score : Float.f64;
  r_DocumentID : string
}.

Definition set_ID (c : Chunk) (id : string) : Chunk :=
  mkChunk id (DocumentID c) (Content c) (Embedding c) (Metadata c) (Index c).

Definition set_Embedding (c : Chunk) (e : list Float.f32) : Chunk :=
  mkChunk (ID c) (DocumentID c) (Content c) e (Metadata c) (Index c).

(** ** Search (retriever/vectorstore.go) *)

(** [sort.Slice(results, less)] with [less i j := results[i].Score >
    results[j].Score].  The library promises a sorted permutation and no
    particular order among elements that compare equal; on slices of at
    most 12 elements it runs the insertion sort below (each element is
    swapped leftwards while it is [less] than its left neighbour).  The
    model runs that insertion sort on every length: [Search] already
    receives its candidates in the unspecified order of a map range, so
    every order of equal elements is covered by some visiting order. *)
Definition less (x y : RetrievalResult) : bool :=
  Float.gtb (r_Score x) (r_Score y).

(** [ins x rp] inserts [x] into the prefix already sorted, held in reverse
    ([rp] starts with the element just left of [x]). *)
Fixpoint ins (x : RetrievalResult) (rp : list RetrievalResult) : list RetrievalResult :=
  match rp with
  | [] => [x]
  | y :: rp' => if less x y then y :: ins x rp' else x :: rp
  end.

Definition sort_Slice (l : list RetrievalResult) : list RetrievalResult :=
  rev (fold_left (fun rp x => ins x rp) l []).

(** The body of the range loop for one chunk: [None] when the chunk is
    skipped. *)
Definition candidate (queryEmbedding : list Float.f32) (threshold : Float.f64)
    (chunk : Chunk) : option RetrievalResult :=
  if Nat.eqb (length (Embedding chunk)) 0 then None
  else
    let score := cosineSimilarityF queryEmbedding (Embedding chunk) in
    if Float.geb score threshold
    then Some (mkResult chunk score (DocumentID chunk))
    else None.

Definition candidates (visit : list (string * Chunk)) (queryEmbedding : list Float.f32)
    (threshold : Float.f64) : list RetrievalResult :=
  omap (fun kv => candidate queryEmbedding threshold (snd kv)) visit.

(** [Search]: [visit] is the order in which [range vs.memory] yields the
    entries of the mirror.  [results[:topK]] panics when [topK] is
    negative. *)
Definition Search (visit : list (string * Chunk)) (queryEmbedding : list Float.f32)
    (topK : Z) (threshold : Float.f64) : outcome (list RetrievalResult) :=
  let results := sort_Slice (candidates visit queryEmbedding threshold) in
  if Z.of_nat (length results) >? topK then
    if topK <? 0 then Panic
    else Ok (take (Z.to_nat topK) results)
  else Ok results.

(** The visiting orders a range over the mirror may take. *)
Definition visits (memory : gmap string Chunk) (visit : list (string * Chunk)) : Prop :=
  visit ≡ₚ map_to_list memory.

(** ** The vector store (retriever/vectorstore.go) *)

(** The gob encoding of a chunk, as bolt stores it. *)
Class Codec (blob : Type) := {
  gob_encode : Chunk -> option blob;
  gob_decode : blob -> option Chunk;
  blob_len : blob -> Z
}.

(** A codec that stores the chunk itself: every chunk encodes and every
    stored value decodes. *)
Definition plain_codec : Codec Chunk := {|
  gob_encode := fun c => Some c;
  gob_decode := fun c => Some c;
  blob_len := fun c => Z.of_nat (length (Content c))
|}.

Section Store.
Context {blob : Type} {codec : Codec blob}.

(** [db] is the committed content of the bucket "chunks"; [memory] is
    the in-memory map. *)
Record VectorStore : Type := mkStore {
  db : gmap string blob;
  memory : gmap string Chunk
}.

(** bbolt's limits on keys and values. *)
Definition MaxKeySize : Z := 32768.
Definition MaxValueSize : Z := 2147483646.

(** [bucket.Put(key, value)] inside a writable transaction. *)
Definition bucket_Put (bucket : gmap string blob) (key : string) (value : blob)
    : outcome (gmap string blob) :=
  if Nat.eqb (String.length key) 0 then Err "key required"
  else if Z.of_nat (String.length key) >? MaxKeySize then Err "key too large"
  else if blob_len value >? MaxValueSize then Err "value too large"
  else Ok (<[key := value]> bucket).

(** [fmt.Sprintf("%s_%d", chunk.DocumentID, chunk.Index)] *)
Definition chunk_key (c : Chunk) : string :=
  DocumentID c +:+ "_" +:+ pretty (Index c).

(** The loop of [AddChunks], run inside the transaction: [bucket] is the
    transaction's view of the bucket, [mem] the in-memory map, which the
    loop writes directly.  It returns the error that stopped it, if
    any. *)
Fixpoint AddChunks_loop (chunks : list Chunk) (bucket : gmap string blob)
    (mem : gmap string Chunk) : option string * gmap string blob * gmap string Chunk :=
  match chunks with
  | [] => (None, bucket, mem)
  | chunk :: rest =>
      let chunk := if String.eqb (ID chunk) "" then set_ID chunk (chunk_key chunk) else chunk in
      match gob_encode chunk with
      | None => (Some "failed to encode chunk", bucket, mem)
      | Some buf =>
          match bucket_Put bucket (ID chunk) buf with
          | Ok bucket' => AddChunks_loop rest bucket' (<[ID chunk := chunk]> mem)
          | Err e => (Some e, bucket, mem)
          | Panic => (Some "panic", bucket, mem)
          end
      end
  end.

(** [db.Update(fn)]: the transaction is committed when [fn] returns nil
    and rolled back when it returns an error; [commit] tells whether the
    commit itself succeeds.  What [fn] wrote to the in-memory map is not
    part of the transaction. *)
Definition AddChunks (commit : bool) (vs : VectorStore) (chunks : list Chunk)
    : outcome unit * VectorStore :=
  let '(err, bucket', mem') := AddChunks_loop chunks (db vs) (memory vs) in
  match err with
  | Some e => (Err e, mkStore (db vs) mem')
  | None =>
      if commit then (Ok tt, mkStore bucket' mem')
      else (Err "commit failed", mkStore (db vs) mem')
  end.

(** The keys [DeleteByDocumentID] collects in [toDelete]: those whose
    value decodes to a chunk of the document (a value that does not
    decode is skipped). *)
Definition matches (documentID : string) (v : blob) : bool :=
  match gob_decode v with
  | Some chunk => String.eqb (DocumentID chunk) documentID
  | None => false
  end.

Definition toDelete (bucket : gmap string blob) (documentID : string) : gmap string blob :=
  filter (fun kv => matches documentID (snd kv) = true) bucket.

Definition DeleteByDocumentID (commit : bool) (vs : VectorStore) (documentID : string)
    : outcome unit * VectorStore :=
  let del := toDelete (db vs) documentID in
  let mem' := filter (fun kv => del !! (fst kv) = None) (memory vs) in
  let bucket' := filter (fun kv => del !! (fst kv) = None) (db vs) in
  if commit then (Ok tt, mkStore bucket' mem')
  else (Err "commit failed", mkStore (db vs) mem').

(** [loadIntoMemory]: every value of the bucket is decoded into the map;
    one value that does not decode fails the load. *)
Definition loadIntoMemory (bucket : gmap string blob) : outcome (gmap string Chunk) :=
  if decide (map_Forall (fun _ v => is_Some (gob_decode v)) bucket)
  then Ok (omap gob_decode bucket)
  else Err "decode failed".

(** [NewVectorStore] on a database file whose bucket holds [bucket]. *)
Definition NewVectorStore (bucket : gmap string blob) : outcome VectorStore :=
  match loadIntoMemory bucket with
  | Ok mem => Ok (mkStore bucket mem)
  | Err e => Err e
  | Panic => Panic
  end.

(** [GetStats]: distinct documents and chunks of the in-memory map. *)
Definition GetStats (vs : VectorStore) : nat * nat :=
  (size (list_to_set (DocumentID <$> (snd <$> map_to_list (memory vs))) : gset string),
   size (memory vs)).

(** The mirror agrees with durable state: the same keys, and each
    mirrored chunk is what its durable value decodes to. *)
Definition consistent (vs : VectorStore) : Prop :=
  forall k : string,
    match memory vs !! k, db vs !! k with
    | Some c, Some v => gob_decode v = Some c
    | None, None => True
    | _, _ => False
    end.

End Store.

(** ** Chunking (context/embedder.go) *)

(** Go's [int] is 64 bits wide; sums and differences wrap around. *)
Definition wrap64 (z : Z) : Z := (z + 2 ^ 63) mod 2 ^ 64 - 2 ^ 63.

(** [unicode.IsSpace] *)
Definition isSpace (r : rune) : bool :=
  ((9 <=? r) && (r <=? 13)) || (r =? 32) || (r =? 133) || (r =? 160)
  || (r =? 5760) || ((8192 <=? r) && (r <=? 8202))
  || (r =? 8232) || (r =? 8233) || (r =? 8239) || (r =? 8287) || (r =? 12288).

Fixpoint trimLeft (s : list rune) : list rune :=
  match s with
  | r :: s' => if isSpace r then trimLeft s' else s
  | [] => []
  end.

(** [strings.TrimSpace] *)
Definition TrimSpace (s : list rune) : list rune :=
  rev (trimLeft (rev (trimLeft s))).

(** Bytes of the UTF-8 encoding of a code point ([len] of a string counts
    bytes). *)
Definition utf8_len (r : rune) : Z :=
  if r <? 0 then 3
  else if r <? 128 then 1
  else if r <? 2048 then 2
  else if r <? 65536 then 3
  else if r <=? 1114111 then 4
  else 3.

Definition byte_len (s : list rune) : Z :=
  fold_right (fun r n => utf8_len r + n) 0 s.

Record ChunkingConfig : Type := mkChunking {
  Method : string;
  ChunkSize : Z;
  ChunkOverlap : Z;
  MinChunkSize : Z
}.

(** The [Metadata] map every chunker attaches to a chunk. *)
Definition chunk_meta (doc : Document) (idx : Z) : gmap string MetaVal :=
  <["source" := MStr (doc_FilePath doc)]>
    (<["doc_id" := MStr (doc_ID doc)]>
      (<["chunk_idx" := MInt idx]> ∅)).

Definition new_chunk (doc : Document) (content : list rune) (idx : Z) : Chunk :=
  mkChunk "" (doc_ID doc) (TrimSpace content) [] (chunk_meta doc idx) idx.

(** [runes[i:end]]: [None] when the bounds are out of range. *)
Definition slice {A} (l : list A) (i e : Z) : option (list A) :=
  if (0 <=? i) && (i <=? e) && (e <=? Z.of_nat (length l))
  then Some (take (Z.to_nat (e - i)) (drop (Z.to_nat i) l))
  else None.

(** The loop of [chunkFixed], from index [i] with [chunks] collected so
    far; [None] when [fuel] iterations did not finish it. *)
Fixpoint chunkFixed_loop (fuel : nat) (doc : Document) (runes : list rune)
    (size overlap : Z) (i : Z) (chunks : list Chunk) : option (outcome (list Chunk)) :=
  match fuel with
  | O => None
  | S fuel' =>
      let len := Z.of_nat (length runes) in
      if i <? len then
        let e := wrap64 (i + size) in
        let e := if e >? len then len else e in
        match slice runes i e with
        | None => Some Panic
        | Some content =>
            let chunks := chunks ++ [new_chunk doc content (Z.of_nat (length chunks))] in
            if e >=? len then Some (Ok chunks)
            else chunkFixed_loop fuel' doc runes size overlap
                   (wrap64 (i + wrap64 (size - overlap))) chunks
        end
      else Some (Ok chunks)
  end.

Definition chunkFixed (fuel : nat) (doc : Document) (text : list rune)
    (size overlap : Z) : option (outcome (list Chunk)) :=
  chunkFixed_loop fuel doc text size overlap 0 [].

(** The windows [runes[i:end]] that [chunkFixed] cuts when
    [0 <= overlap < size]: one every [size - overlap] code points, the
    last one ending the text. *)
Fixpoint windows (fuel : nat) (runes : list rune) (size stride : nat) : list (list rune) :=
  match fuel with
  | O => []
  | S fuel' =>
      match runes with
      | [] => []
      | _ =>
          if Nat.leb (length runes) size then [runes]
          else take size runes :: windows fuel' (drop stride runes) size stride
      end
  end.

Section Chunker.
(** The recursive (paragraph and sentence) chunker is not part of the
    properties below; it is a total function of its arguments. *)
Variable chunkRecursive : Document -> list rune -> Z -> Z -> list Chunk.

(** [ChunkDocument] *)
Definition ChunkDocument (fuel : nat) (cfg : ChunkingConfig) (doc : Document)
    : option (outcome (list Chunk)) :=
  let text := doc_Content doc in
  let chunks :=
    if String.eqb (Method cfg) "fixed" then
      chunkFixed fuel doc text (ChunkSize cfg) (ChunkOverlap cfg)
    else if String.eqb (Method cfg) "recursive" then
      Some (Ok (chunkRecursive doc text (ChunkSize cfg) (ChunkOverlap cfg)))
    else chunkFixed fuel doc text (ChunkSize cfg) (ChunkOverlap cfg) in
  match chunks with
  | Some (Ok chunks) =>
      Some (Ok (filter (fun c => MinChunkSize cfg <= byte_len (TrimSpace (Content c))) chunks))
  | other => other
  end.
End Chunker.

(** ** Paths (path/filepath, strings) *)

Definition is_sep (c : ascii) : bool := Ascii.eqb c "/".

(** Scan of a path from its end, as [filepath.Ext] does: [acc] holds the
    characters already passed. *)
Fixpoint ext_scan (rpath acc : list ascii) : list ascii :=
  match rpath with
  | [] => []
  | c :: rest =>
      if is_sep c then []
      else if Ascii.eqb c "." then c :: acc
      else ext_scan rest (c :: acc)
  end.

(** [filepath.Ext] on a host whose separator is [/]. *)
Definition Ext (path : string) : string :=
  string_of_list_ascii (ext_scan (rev (list_ascii_of_string path)) []).

(** [strings.ToLower] on the ASCII letters (the only ones that matter to
    the extensions the parser knows). *)
Definition lower_ascii (c : ascii) : ascii :=
  let n := nat_of_ascii c in
  if Nat.leb 65 n && Nat.leb n 90 then ascii_of_nat (n + 32) else c.

Definition ToLower (s : string) : string :=
  string_of_list_ascii (map lower_ascii (list_ascii_of_string s)).

Fixpoint drop_seps (l : list ascii) : list ascii :=
  match l with
  | c :: l' => if is_sep c then drop_seps l' else l
  | [] => []
  end.

Fixpoint take_elem (l acc : list ascii) : list ascii :=
  match l with
  | c :: l' => if is_sep c then acc else take_elem l' (c :: acc)
  | [] => acc
  end.

(** [filepath.Base] *)
Definition Base (path : string) : string :=
  match list_ascii_of_string path with
  | [] => "."
  | l =>
      match drop_seps (rev l) with
      | [] => "/"
      | r => string_of_list_ascii (take_elem r [])
      end
  end.

(** ** The indexer (context/indexer.go, context/embedder.go) *)

(** A file of the context folder: its bytes and modification time. *)
Record File : Type := mkFile {
  f_bytes : string;
  f_mtime : Z
}.

(** The file system as one call sees it.  [mkdir_ok] and [can_create]
    say whether the cache directory can be made and a cache file
    created. *)
Record World : Type := mkWorld {
  fs : gmap string File;
  mkdir_ok : bool;
  can_create : string -> bool
}.

(** A file of the cache directory, by what was gob-encoded into it. *)
Inductive CacheFile : Type :=
| DocGob (d : Document)
| ChunksGob (cs : list Chunk).

(** The indexer: its in-process map, the cache directory (keyed by file
    name), and counters of the parse, chunk and embedding-provider calls
    made so far (the counters are not in the Go code; they let a property
    say that a call did none of these). *)
Record Indexer : Type := mkIndexer {
  docCache : gmap string Document;
  diskCache : gmap string CacheFile;
  n_parse : nat;
  n_chunk : nat;
  n_embed : nat
}.

(** What the indexer is linked against: the SHA-256 digest, the text
    extractors of the parser, the recursive chunker and the embedding
    provider (whose answer may depend on how many calls came before). *)
Class Deps := {
  FileHash_bytes : string -> string;
  parsePDF : string -> outcome (list rune);
  parseText : string -> outcome (list rune);
  chunkRecursive : Document -> list rune -> Z -> Z -> list Chunk;
  getEmbeddings : nat -> list (list rune) -> outcome (list (list Float.f32))
}.

Record Config : Type := mkConfig {
  Chunking : ChunkingConfig;
  BatchSize : Z
}.

Section Indexing.
Context {deps : Deps}.
Variable cfg : Config.

(** [utils.FileHash]: fails when the file cannot be opened. *)
Definition FileHash (w : World) (path : string) : outcome string :=
  match fs w !! path with
  | Some f => Ok (FileHash_bytes (f_bytes f))
  | None => Err "failed to open file"
  end.

(** [ParseDocument] (the parser sits next to the indexer in package
    context). *)
Definition ParseDocument (w : World) (filePath : string) : outcome Document :=
  let ext := ToLower (Ext filePath) in
  let extract : option (string -> outcome (list rune)) :=
    if String.eqb ext ".pdf" then Some parsePDF
    else if String.eqb ext ".txt" || String.eqb ext ".md" then Some parseText
    else None in
  match extract with
  | None => Err ("unsupported file type: " +:+ ext)
  | Some extract =>
      match fs w !! filePath with
      | None => Err "failed to open file"
      | Some f =>
          match extract (f_bytes f) with
          | Ok content =>
              let hash := FileHash_bytes (f_bytes f) in
              Ok (mkDocument hash filePath content
                    (<["filename" := Base filePath]>
                      (<["extension" := ext]>
                        (<["size" := pretty (Z.of_nat (String.length (f_bytes f)))]> ∅)))
                    hash (f_mtime f))
          | Err e => Err e
          | Panic => Panic
          end
      end
  end.

(** [chunks[i+j].Embedding = emb] for the embeddings of one batch;
    [None] when an index is out of range. *)
Fixpoint assign (chunks : list Chunk) (i : Z) (embeddings : list (list Float.f32))
    : option (list Chunk) :=
  match embeddings with
  | [] => Some chunks
  | emb :: rest =>
      if (0 <=? i) && (i <? Z.of_nat (length chunks)) then
        assign (alter (fun c => set_Embedding c emb) (Z.to_nat i) chunks) (i + 1) rest
      else None
  end.

(** The batch loop of [CreateEmbeddings] from index [i]; [calls] counts
    the provider calls made.  [None] when [fuel] iterations did not
    finish it. *)
Fixpoint CreateEmbeddings_loop (fuel : nat) (texts : list (list rune)) (i : Z)
    (chunks : list Chunk) (calls : nat) : option (outcome (list Chunk) * nat) :=
  match fuel with
  | O => None
  | S fuel' =>
      let len := Z.of_nat (length texts) in
      if i <? len then
        let e := wrap64 (i + BatchSize cfg) in
        let e := if e >? len then len else e in
        match slice texts i e with
        | None => Some (Panic, calls)
        | Some batch =>
            match getEmbeddings calls batch with
            | Err err => Some (Err ("failed to get embeddings: " +:+ err), S calls)
            | Panic => Some (Panic, S calls)
            | Ok embeddings =>
                match assign chunks i embeddings with
                | None => Some (Panic, S calls)
                | Some chunks' =>
                    CreateEmbeddings_loop fuel' texts (wrap64 (i + BatchSize cfg))
                      chunks' (S calls)
                end
            end
        end
      else Some (Ok chunks, calls)
  end.

Definition CreateEmbeddings (fuel : nat) (chunks : list Chunk) (calls : nat)
    : option (outcome (list Chunk) * nat) :=
  CreateEmbeddings_loop fuel (map Content chunks) 0 chunks calls.

Definition doc_file (id : string) : string := id +:+ ".doc.gob".
Definition chunks_file (id : string) : string := id +:+ ".chunks.gob".

(** [cacheDocument]: the files of the cache directory after the call,
    with the error it returns, if any. *)
Definition cacheDocument (w : World) (disk : gmap string CacheFile)
    (doc : Document) (chunks : list Chunk) : outcome unit * gmap string CacheFile :=
  if negb (mkdir_ok w) then (Err "mkdir failed", disk)
  else if negb (can_create w (doc_file (doc_ID doc))) then (Err "create failed", disk)
  else
    let disk := <[doc_file (doc_ID doc) := DocGob doc]> disk in
    if negb (can_create w (chunks_file (doc_ID doc))) then (Err "create failed", disk)
    else (Ok tt, <[chunks_file (doc_ID doc) := ChunksGob chunks]> disk).

(** [loadCachedDocument] *)
Definition loadCachedDocument (w : World) (idx : Indexer) (filePath : string)
    : option Document :=
  match FileHash w filePath with
  | Ok hash =>
      match diskCache idx !! doc_file hash with
      | Some (DocGob d) => Some d
      | _ => None
      end
  | _ => None
  end.

(** [loadCachedChunks] *)
Definition loadCachedChunks (idx : Indexer) (docID : string) : outcome (list Chunk) :=
  match diskCache idx !! chunks_file docID with
  | Some (ChunksGob cs) => Ok cs
  | Some (DocGob _) => Err "decode failed"
  | None => Err "open failed"
  end.

(** [needsReindex] *)
Definition needsReindex (w : World) (idx : Indexer) (filePath : string)
    : option Document * bool :=
  let cached :=
    match docCache idx !! filePath with
    | Some d => Some d
    | None => loadCachedDocument w idx filePath
    end in
  match cached with
  | None => (None, true)
  | Some cached =>
      match fs w !! filePath with
      | None => (None, true)
      | Some f =>
          let currentHash := FileHash_bytes (f_bytes f) in
          if negb (String.eqb currentHash (doc_Hash cached)) then (Some cached, true)
          else if f_mtime f >? doc_FileModTime cached then (Some cached, true)
          else (Some cached, false)
      end
  end.

Definition count_parse (idx : Indexer) : Indexer :=
  mkIndexer (docCache idx) (diskCache idx) (S (n_parse idx)) (n_chunk idx) (n_embed idx).
Definition count_chunk (idx : Indexer) : Indexer :=
  mkIndexer (docCache idx) (diskCache idx) (n_parse idx) (S (n_chunk idx)) (n_embed idx).
Definition set_embed (idx : Indexer) (n : nat) : Indexer :=
  mkIndexer (docCache idx) (diskCache idx) (n_parse idx) (n_chunk idx) n.

(** The part of [IndexFile] after the cache check. *)
Definition reindex (fuel : nat) (w : World) (idx : Indexer) (filePath : string)
    : option (outcome (list Chunk) * Indexer) :=
  let idx := count_parse idx in
  match ParseDocument w filePath with
  | Err e => Some (Err ("failed to parse document: " +:+ e), idx)
  | Panic => Some (Panic, idx)
  | Ok doc =>
      let idx := count_chunk idx in
      match ChunkDocument chunkRecursive fuel (Chunking cfg) doc with
      | None => None
      | Some Panic => Some (Panic, idx)
      | Some (Err e) => Some (Err e, idx)
      | Some (Ok chunks) =>
          if Nat.eqb (length chunks) 0
          then Some (Err "no chunks created from document", idx)
          else
            match CreateEmbeddings fuel chunks (n_embed idx) with
            | None => None
            | Some (Panic, n) => Some (Panic, set_embed idx n)
            | Some (Err e, n) =>
                Some (Err ("failed to create embeddings: " +:+ e), set_embed idx n)
            | Some (Ok chunks, n) =>
                let idx := set_embed idx n in
                let '(_, disk) := cacheDocument w (diskCache idx) doc chunks in
                Some (Ok chunks,
                      mkIndexer (<[filePath := doc]> (docCache idx)) disk
                        (n_parse idx) (n_chunk idx) (n_embed idx))
            end
      end
  end.

(** [IndexFile] *)
Definition IndexFile (fuel : nat) (w : World) (idx : Indexer) (filePath : string)
    (forceReindex : bool) : option (outcome (list Chunk) * Indexer) :=
  if forceReindex then reindex fuel w idx filePath
  else
    match needsReindex w idx filePath with
    | (Some cached, false) => Some (loadCachedChunks idx (doc_ID cached), idx)
    | _ => reindex fuel w idx filePath
    end.

End Indexing.

(** ** The update path (orchestrator/orchestrator.go, context/watcher.go) *)

Section Update.
Context {deps : Deps} {blob : Type} {codec : Codec blob}.
Variable cfg : Config.

(** The indexer and the store of the retriever, as the orchestrator
    holds them. *)
Record System : Type := mkSystem {
  indexer : Indexer;
  store : @VectorStore blob
}.

(** [Orchestrator.handleFileUpdate]: errors are logged, not returned.
    [commit] tells whether the store's transaction commits. *)
Definition handleFileUpdate (fuel : nat) (w : World) (commit : bool) (sys : System)
    (filePath : string) : option (outcome unit * System) :=
  match IndexFile cfg fuel w (indexer sys) filePath true with
  | None => None
  | Some (Panic, idx) => Some (Panic, mkSystem idx (store sys))
  | Some (Err _, idx) => Some (Ok tt, mkSystem idx (store sys))
  | Some (Ok chunks, idx) =>
      let '(_, vs) := AddChunks commit (store sys) chunks in
      Some (Ok tt, mkSystem idx vs)
  end.

(** [Watcher.handleFileChange], with the callback the orchestrator
    registers in [NewOrchestrator]. *)
Definition handleFileChange (fuel : nat) (w : World) (commit : bool) (sys : System)
    (filePath : string) : option (outcome unit * System) :=
  match IndexFile cfg fuel w (indexer sys) filePath true with
  | None => None
  | Some (Panic, idx) => Some (Panic, mkSystem idx (store sys))
  | Some (Err _, idx) => Some (Ok tt, mkSystem idx (store sys))
  | Some (Ok _, idx) =>
      handleFileUpdate fuel w commit (mkSystem idx (store sys)) filePath
  end.

End Update.

(** ** Sums used to state the properties of the cosine *)




(** ** The order the comparisons of scores follow *)

(** Two finite floats of the same sign compare by exponent, then by
    mantissa. *)
Definition lex (e1 : Z) (m1 : positive) (e2 : Z) (m2 : positive) : comparison :=
  match e1 ?= e2 with Lt => Lt | Gt => Gt | Eq => Pos.compare m1 m2 end.

(** ** Vocabulary for the properties of Search *)

(** [a] scores at least as high as [b]. *)
Definition score_ge (a b : RetrievalResult) : Prop :=
  Float.geb (r_Score a) (r_Score b) = true.

(** The chunk passes the two tests of the loop of [Search]. *)
Definition qualifies (queryEmbedding : list Float.f32) (threshold : Float.f64)
    (c : Chunk) : Prop :=
  Embedding c <> [] /\
  Float.geb (cosineSimilarityF queryEmbedding (Embedding c)) threshold = true.

(** The result [Search] builds for a chunk. *)
Definition result_of (queryEmbedding : list Float.f32) (c : Chunk) : RetrievalResult :=
  mkResult c (cosineSimilarityF queryEmbedding (Embedding c)) (DocumentID c).

(** No two results of the list have scores that compare equal. *)
Definition NoTies (l : list RetrievalResult) : Prop :=
  ForallOrdPairs (fun a b => less a b = true \/ less b a = true) l.

(** Every score of the list is a number. *)
Definition numbers (l : list RetrievalResult) : Prop :=
  Forall (fun r => Float.is_nan (r_Score r) = false) l.

(** The prefix the insertion sort holds in reverse is sorted: scores do
    not decrease from its head on. *)
Definition ascending (rp : list RetrievalResult) : Prop :=
  StronglySorted (fun a b => score_ge b a) rp.

(** ** Sample data for the worked examples *)

Module Sample.

Definition e1 : list Float.f32 := [Float.lit32 1 0; S754_zero false].
Definition e2 : list Float.f32 := [S754_zero false; Float.lit32 1 0].
Definition half : Float.f64 := Float.lit64 1 (-1).

Definition chunk (id docID : string) (emb : list Float.f32) : Chunk :=
  mkChunk id docID [] emb ∅ 0.

Definition ca : Chunk := chunk "a_0" "a" e1.
Definition cb : Chunk := chunk "b_0" "b" e1.
Definition cc : Chunk := chunk "c_0" "c" e2.

(** A mirror with two chunks of equal embedding and a third one. *)
Definition memory3 : gmap string Chunk :=
  <["a_0" := ca]> (<["b_0" := cb]> (<["c_0" := cc]> ∅)).

Definition visit_abc : list (string * Chunk) :=
  [("a_0", ca); ("b_0", cb); ("c_0", cc)].
Definition visit_bac : list (string * Chunk) :=
  [("b_0", cb); ("a_0", ca); ("c_0", cc)].

End Sample.

(** ** Vocabulary for the properties of the store *)

(** What gob guarantees for the chunks it encodes: decoding gives the
    chunk back. *)
Class CodecLaws {blob : Type} (codec : Codec blob) : Prop := {
  decode_encode : forall c b, gob_encode c = Some b -> gob_decode b = Some c
}.

(** A bucket and a map that hold the same keys, each chunk being what the
    value under its key decodes to. *)
Definition agree {blob : Type} {codec : Codec blob}
    (bucket : gmap string blob) (mem : gmap string Chunk) : Prop :=
  forall k : string,
    match mem !! k, bucket !! k with
    | Some c, Some v => gob_decode v = Some c
    | None, None => True
    | _, _ => False
    end.

(** A key longer than bbolt accepts. *)
Definition long_key : string :=
  string_of_list_ascii (repeat "k"%char (Z.to_nat 32769)).

(** ** Sample stores *)

Module SampleStore.

Definition empty_store : @VectorStore Chunk := mkStore ∅ ∅.

(** A chunk whose key bbolt refuses. *)
Definition bad : Chunk := Sample.chunk long_key "b" Sample.e1.

Definition AddChunks := @AddChunks Chunk plain_codec.
Definition DeleteByDocumentID := @DeleteByDocumentID Chunk plain_codec.
Definition NewVectorStore := @NewVectorStore Chunk plain_codec.
Definition consistent := @consistent Chunk plain_codec.

End SampleStore.

(** ** Vocabulary for the properties of the chunker *)

(** The chunks [chunkFixed] makes of the windows [ws], numbered from [k]. *)
Fixpoint chunks_from (doc : Document) (k : Z) (ws : list (list rune)) : list Chunk :=
  match ws with
  | [] => []
  | w :: ws' => new_chunk doc w k :: chunks_from doc (k + 1) ws'
  end.

(** The windows of a text under a policy with [0 <= overlap < size]. *)
Definition fixed_windows (runes : list rune) (size overlap : Z) : list (list rune) :=
  windows (S (length runes)) runes (Z.to_nat size) (Z.to_nat (size - overlap)).

(** Concatenation accounting for overlap: the first piece whole, every
    later one without its first [overlap] code points. *)
Definition unoverlap (overlap : nat) (ws : list (list rune)) : list rune :=
  match ws with
  | [] => []
  | w :: rest => w ++ concat (map (drop overlap) rest)
  end.

(** The chunk contents of a finished call. *)
Definition contents_of (r : option (outcome (list Chunk))) : option (list (list rune)) :=
  match r with
  | Some (Ok chunks) => Some (map Content chunks)
  | _ => None
  end.

Module SampleText.

Definition doc (content : list rune) : Document :=
  mkDocument "h" "/ctx/a.txt" content ∅ "h" 0.

(** "ab cd" *)
Definition ab_cd : list rune := [97; 98; 32; 99; 100].
(** "abcde" *)
Definition abcde : list rune := [97; 98; 99; 100; 101].

Definition fixed (size overlap : Z) : ChunkingConfig :=
  mkChunking "fixed" size overlap 0.

End SampleText.

(** ** Sample files, providers and configurations *)

Module SampleIndex.

Definition runes_of (s : string) : list rune :=
  map (fun a => Z.of_nat (nat_of_ascii a)) (list_ascii_of_string s).

(** A provider that answers every text with the same vector. *)
Definition embed_all (batch : list (list rune)) : list (list Float.f32) :=
  map (fun _ => Sample.e1) batch.

(** Stand-ins for what the indexer is linked against: the digest is
    replaced by an injective function of the bytes, text files hold
    ASCII, and the provider always answers. *)
Definition deps_ok : Deps := {|
  FileHash_bytes := fun bytes => "h-" +:+ bytes;
  parsePDF := fun _ => Err "not a PDF";
  parseText := fun bytes => Ok (runes_of bytes);
  chunkRecursive := fun _ _ _ _ => [];
  getEmbeddings := fun _ batch => Ok (embed_all batch)
|}.


(** Windows of 3 code points overlapping by 1, one text per provider
    call. *)
Definition cfg : Config := mkConfig (mkChunking "fixed" 3 1 0) 1.

Definition path : string := "/ctx/a.txt".

(** The context folder with [path] holding [bytes], last modified at
    [mtime]; [writable] tells whether the cache directory can be
    written. *)
Definition world (bytes : string) (mtime : Z) (writable : bool) : World :=
  mkWorld {[ path := mkFile bytes mtime ]} writable (fun _ => writable).

Definition fresh : Indexer := mkIndexer ∅ ∅ 0 0 0.

Definition start : @System Chunk := mkSystem fresh (mkStore ∅ ∅).

(** The watcher's reaction to a change of [path], with the sample
    provider and a store whose transactions commit. *)
Definition change (w : World) (sys : @System Chunk) : option (outcome unit * @System Chunk) :=
  handleFileChange (deps := deps_ok) (codec := plain_codec) cfg 10 w true sys path.

Definition state_of (r : option (outcome unit * @System Chunk)) : @System Chunk :=
  match r with
  | Some (_, sys) => sys
  | None => start
  end.

(** The system after [path] was first written, and after its content
    changed. *)
Definition after_first : @System Chunk :=
  Eval vm_compute in state_of (change (world "abcde" 1 true) start).
Definition after_second : @System Chunk :=
  Eval vm_compute in state_of (change (world "vwxyz" 2 true) after_first).

(** The first chunk of each version of the file, as the store holds
    it. *)
Definition stored (hash : string) (content : string) : Chunk :=
  mkChunk (hash +:+ "_0") hash (runes_of content) Sample.e1
    (chunk_meta (mkDocument hash path [] ∅ hash 0) 0) 0.
Definition stale : Chunk := stored "h-abcde" "abc".
Definition current : Chunk := stored "h-vwxyz" "vwx".

End SampleIndex.

(** ** Vocabulary for further properties of the store *)

(** The key [AddChunks] stores a chunk under: its ID, or the one made
    of its document and index when it has none. *)
Definition key_of (c : Chunk) : string :=
  if String.eqb (ID c) "" then chunk_key c else ID c.


Module SampleStore3.

(** A store holding one chunk of each of three documents, durable and
    mirrored. *)
Definition store3 : @VectorStore Chunk := mkStore Sample.memory3 Sample.memory3.

Definition after_delete : @VectorStore Chunk :=
  snd (SampleStore.DeleteByDocumentID true store3 "a").

Definition after_add : @VectorStore Chunk :=
  snd (SampleStore.AddChunks true SampleStore.empty_store [Sample.ca; Sample.cb]).

End SampleStore3.

(** ** Sentences (context/embedder.go) *)

(** ['.'], ['!'] or ['?'] *)
Definition isTerminator (r : rune) : bool :=
  (r =? 46) || (r =? 33) || (r =? 63).

(** The loop of [splitSentences] over the code points still to read,
    with the sentence being built and the ones already cut. *)
Fixpoint splitSentences_loop (runes : list rune) (current : list rune)
    (sentences : list (list rune)) : list (list rune) :=
  match runes with
  | [] =>
      if negb (Nat.eqb (length current) 0)
      then sentences ++ [TrimSpace current]
      else sentences
  | r :: rest =>
      let current := current ++ [r] in
      if isTerminator r && match rest with r' :: _ => isSpace r' | [] => false end
      then splitSentences_loop rest [] (sentences ++ [TrimSpace current])
      else splitSentences_loop rest current sentences
  end.

Definition splitSentences (text : list rune) : list (list rune) :=
  splitSentences_loop text [] [].

(** ** Vocabulary for further properties of the chunker *)

(** The code points of a string that are not white space. *)
Definition nonspace (s : list rune) : list rune :=
  List.filter (fun r => negb (isSpace r)) s.

(** What [chunkFixed] sets in the chunk it appends at position [k]. *)
Definition fresh_chunk (doc : Document) (k : nat) (c : Chunk) : Prop :=
  Index c = Z.of_nat k
  /\ DocumentID c = doc_ID doc
  /\ ID c = ""
  /\ Embedding c = []
  /\ Metadata c = chunk_meta doc (Z.of_nat k)
  /\ TrimSpace (Content c) = Content c.

Module SampleGap.

(** "abc   de": with windows of 3 code points and no overlap the middle
    window is white space only. *)
Definition text : list rune := [97; 98; 99; 32; 32; 32; 100; 101].

Definition doc : Document := SampleText.doc text.

Definition cfg : ChunkingConfig := mkChunking "fixed" 3 0 1.

End SampleGap.

(** ** Queries (context/embedder.go, retriever/retriever.go) *)

Record RetrievalConfig : Type := mkRetrieval {
  TopK : Z;
  SimilarityThreshold : Float.f64
}.

Section Retrieval.
Context {deps : Deps}.

(** [CreateEmbedding]; [calls] numbers the provider call. *)
Definition CreateEmbedding (text : list rune) (calls : nat) : outcome (list Float.f32) :=
  match getEmbeddings calls [text] with
  | Err e => Err e
  | Panic => Panic
  | Ok [] => Err "no embeddings returned"
  | Ok (emb :: _) => Ok emb
  end.

(** [Retriever.Retrieve], the mirror being visited in the order
    [visit]. *)
Definition Retrieve (rcfg : RetrievalConfig) (visit : list (string * Chunk))
    (query : list rune) (calls : nat) : outcome (list RetrievalResult) :=
  match CreateEmbedding query calls with
  | Err e => Err ("failed to create query embedding: " +:+ e)
  | Panic => Panic
  | Ok queryEmb => Search visit queryEmb (TopK rcfg) (SimilarityThreshold rcfg)
  end.

End Retrieval.

(** ** Validation of the configuration (internal/config) *)

(** The fields [Validate] looks at. *)
Record AppConfig : Type := mkApp {
  WakeWord_Word : string;
  Context_Folder : string;
  LLM_APIKey : string;
  LLM_Provider : string;
  Retrieval : RetrievalConfig
}.

(** [strings.Contains] *)
Definition Contains (s substr : string) : bool :=
  match String.index 0 substr s with
  | Some _ => true
  | None => false
  end.

(** [Config.Validate] *)
Definition Validate (c : AppConfig) : outcome unit :=
  if String.eqb (WakeWord_Word c) "" then Err "wake_word.word cannot be empty"
  else if String.eqb (Context_Folder c) "" then Err "context.folder cannot be empty"
  else if String.eqb (LLM_APIKey c) "" && negb (Contains (LLM_Provider c) "local")
  then Err ("llm.api_key must be set for provider: " +:+ LLM_Provider c)
  else if TopK (Retrieval c) <=? 0 then Err "retrieval.top_k must be positive"
  else Ok tt.

(** ** Vocabulary for the properties of the embedder *)

(** [cur] is [chunks0] with the chunks before position [i] given the
    embedding [f] makes of their content. *)
Definition embedded (f : list rune -> list Float.f32) (i : nat)
    (chunks0 cur : list Chunk) : Prop :=
  length cur = length chunks0
  /\ forall j c, chunks0 !! j = Some c ->
       cur !! j = Some (if decide (j < i)%nat then set_Embedding c (f (Content c)) else c).

(** The number of batches of [b] texts that [n] texts make. *)
Definition batches (n b : Z) : nat := Z.to_nat ((n + b - 1) / b).

Module SampleQuery.

Definition app : AppConfig :=
  mkApp "jarvis" "/ctx" "key" "openai" (mkRetrieval 2 Sample.half).

(** Batches of two texts. *)
Definition cfg2 : Config := mkConfig (mkChunking "fixed" 3 1 0) 2.
Definition cfg0 : Config := mkConfig (mkChunking "fixed" 3 1 0) 0.
Definition cfg_neg : Config := mkConfig (mkChunking "fixed" 3 1 0) (-1).

Definition three : list Chunk :=
  chunks_from (SampleText.doc SampleText.abcde) 0 [[97]; [98]; [99]].

End SampleQuery.

(** ** Walking the context folder (context/indexer.go) *)


Section Directory.
Context {deps : Deps}.
Variable cfg : Config.



End Directory.

Module SampleFolder.

(** A folder with a text file, a file whose extension is in capitals, a
    file that does not exist any more and a spreadsheet. *)
Definition w : World :=
  mkWorld (<["/ctx/a.txt" := mkFile "abcde" 1]>
            (<["/ctx/B.TXT" := mkFile "vwxyz" 1]>
              (<["/ctx/s.csv" := mkFile "1,2" 1]> ∅)))
    true (fun _ => true).



(** Two files with the same bytes, the second not newer than the
    first. *)
Definition twins : World :=
  mkWorld (<["/ctx/a.txt" := mkFile "abcde" 2]>
            (<["/ctx/copy.txt" := mkFile "abcde" 1]> ∅))
    true (fun _ => true).

End SampleFolder.

(** ** Recursive chunking (context/embedder.go) *)

Module Recursive.

(** [strings.Split(text, "\n\n")]; [current] is the piece being read. *)
Fixpoint Split (text current : list rune) : list (list rune) :=
  match text with
  | [] => [current]
  | r :: rest =>
      match rest with
      | r' :: rest' =>
          if (r =? 10) && (r' =? 10) then current :: Split rest' []
          else Split rest (current ++ [r])
      | [] => Split rest (current ++ [r])
      end
  end.

(** [strings.Fields]; [word] is the field being read. *)
Fixpoint Fields_from (s word : list rune) : list (list rune) :=
  match s with
  | [] => match word with [] => [] | _ => [word] end
  | r :: rest =>
      if isSpace r
      then match word with
           | [] => Fields_from rest []
           | _ => word :: Fields_from rest []
           end
      else Fields_from rest (word ++ [r])
  end.

Definition Fields (s : list rune) : list (list rune) := Fields_from s [].

(** [strings.Join(words, " ")] *)
Fixpoint Join (words : list (list rune)) : list rune :=
  match words with
  | [] => []
  | w :: rest =>
      match rest with
      | [] => w
      | _ => w ++ [32] ++ Join rest
      end
  end.

(** The chunk appended for the text collected in [current]. *)
Definition emit (doc : Document) (chunks : list Chunk) (current : list rune) : list Chunk :=
  chunks ++ [new_chunk doc current (Z.of_nat (length chunks))].

(** The body of the loop over the sentences of a paragraph longer than
    [size]; the state is the chunks made and the text collected. *)
Definition add_sentence (doc : Document) (size overlap : Z)
    (st : list Chunk * list rune) (sent : list rune) : list Chunk * list rune :=
  let '(chunks, current) := st in
  let '(chunks, current) :=
    if (byte_len current + byte_len sent >? size) && (byte_len current >? 0) then
      let words := Fields current in
      let overlapWords := Z.quot overlap 10 in
      let overlapWords :=
        if overlapWords >? Z.of_nat (length words) then Z.of_nat (length words)
        else overlapWords in
      (emit doc chunks current,
       if overlapWords >? 0
       then Join (drop (length words - Z.to_nat overlapWords) words) ++ [32]
       else [])
    else (chunks, current) in
  (chunks, current ++ sent ++ [32]).

(** The body of the loop over the paragraphs. *)
Definition add_paragraph (doc : Document) (size overlap : Z)
    (st : list Chunk * list rune) (para : list rune) : list Chunk * list rune :=
  let para := TrimSpace para in
  if Nat.eqb (length para) 0 then st
  else if byte_len para >? size then
    fold_left (add_sentence doc size overlap) (splitSentences para) st
  else
    let '(chunks, current) := st in
    let '(chunks, current) :=
      if (byte_len current + byte_len para >? size) && (byte_len current >? 0)
      then (emit doc chunks current, [])
      else (chunks, current) in
    (chunks, current ++ para ++ [10; 10]).

(** [chunkRecursive] *)
Definition chunkRecursive (doc : Document) (text : list rune) (size overlap : Z)
    : list Chunk :=
  let '(chunks, current) :=
    fold_left (add_paragraph doc size overlap) (Split text []) ([], []) in
  if byte_len current >? 0 then emit doc chunks current else chunks.

End Recursive.

(** ** Vocabulary for the properties of recursive chunking *)

(** The code points other than white space that a state of the loops
    holds: those of the contents of its chunks, then those of the text
    collected and not yet made a chunk. *)
Definition held (st : list Chunk * list rune) : list rune :=
  nonspace (concat (map Content (fst st))) ++ nonspace (snd st).

(** The chunks of a state are numbered by position. *)
Definition numbered (doc : Document) (st : list Chunk * list rune) : Prop :=
  forall k c, fst st !! k = Some c -> fresh_chunk doc k c.

Module SampleParagraphs.

(** "ab cd" and "ef", two paragraphs. *)
Definition text : list rune := [97; 98; 32; 99; 100; 10; 10; 101; 102].

Definition doc : Document := SampleText.doc text.

End SampleParagraphs.

(** * Properties *)

(** ** Cosine similarity *)

Section CosineReal.
Local Open Scope R_scope.


















End CosineReal.

Section CosineFloat.



End CosineFloat.




(** ** Comparisons of scores *)

Section FloatOrder.

Lemma lex_antisym e1 m1 e2 m2 : lex e2 m2 e1 m1 = CompOpp (lex e1 m1 e2 m2).
Proof.
unfold lex. rewrite (Z.compare_antisym e1 e2).
destruct (e1 ?= e2); simpl; auto. apply Pos.compare_antisym.
Qed.

Lemma lex_Lt e1 m1 e2 m2 : lex e1 m1 e2 m2 = Lt <-> (e1 < e2 \/ (e1 = e2 /\ (m1 < m2)%positive)).
Proof.
unfold lex. destruct (Z.compare_spec e1 e2) as [E|E|E].
- rewrite Pos.compare_lt_iff. split; [intros; right; auto | intros [?|[_ ?]]; [lia|auto]].
- split; auto.
- split; [discriminate | intros [?|[? _]]; lia].
Qed.

Lemma lex_Eq e1 m1 e2 m2 : lex e1 m1 e2 m2 = Eq <-> (e1 = e2 /\ m1 = m2).
Proof.
unfold lex. destruct (Z.compare_spec e1 e2) as [E|E|E].
- rewrite Pos.compare_eq_iff. split; [intros; auto | intros [_ ?]; auto].
- split; [discriminate | intros [? _]; lia].
- split; [discriminate | intros [? _]; lia].
Qed.

Lemma lex_Gt e1 m1 e2 m2 : lex e1 m1 e2 m2 = Gt <-> (e2 < e1 \/ (e1 = e2 /\ (m2 < m1)%positive)).
Proof.
pose proof (lex_Lt e2 m2 e1 m1) as H. rewrite lex_antisym in H.
destruct (lex e1 m1 e2 m2); simpl in H; split; intros H0; try discriminate; auto;
  try (exfalso;
       assert (X : e2 < e1 \/ e2 = e1 /\ (m2 < m1)%positive)
         by (destruct H0 as [?|[? ?]]; [left; lia | right; split; [lia|auto]]);
       apply H in X; discriminate).
destruct (proj1 H eq_refl) as [?|[? ?]]; [left; lia | right; split; [lia|auto]].
Qed.

Lemma SFcompare_finite s1 m1 e1 s2 m2 e2 :
SFcompare (S754_finite s1 m1 e1) (S754_finite s2 m2 e2) =
Some (match s1, s2 with
      | true, false => Lt
      | false, true => Gt
      | false, false => lex e1 m1 e2 m2
      | true, true => CompOpp (lex e1 m1 e2 m2)
      end).
Proof.
unfold lex. simpl. destruct s1, s2; auto; destruct (e1 ?= e2); auto.
Qed.

Lemma SFleb_ok x y : SFleb x y = true -> Float.is_nan x = false /\ Float.is_nan y = false.
Proof. unfold SFleb. destruct x, y; simpl; intros; try discriminate; auto. Qed.

Lemma SFltb_leb x y : SFltb x y = true -> SFleb x y = true.
Proof. unfold SFltb, SFleb. destruct (SFcompare x y) as [[]|]; congruence. Qed.

Lemma SFcompare_antisym x y c :
SFcompare x y = Some c -> SFcompare y x = Some (CompOpp c).
Proof.
destruct x as [sx|sx| |sx mx ex], y as [sy|sy| |sy my ey];
  try rewrite !SFcompare_finite; simpl; intros H; try discriminate;
  injection H as <-; try (destruct sx; try destruct sy; reflexivity).
f_equal. rewrite (lex_antisym ex mx ey my).
destruct sx, sy; simpl; auto. 
Qed.

Lemma SFcompare_some x y : Float.is_nan x = false -> Float.is_nan y = false -> exists c, SFcompare x y = Some c.
Proof. destruct x, y; simpl; intros; try discriminate; eauto. Qed.

Lemma SFltb_false_leb x y : Float.is_nan x = false -> Float.is_nan y = false -> SFltb x y = false -> SFleb y x = true.
Proof.
intros Hx Hy. destruct (SFcompare_some x y Hx Hy) as [c Hc].
unfold SFltb, SFleb. rewrite Hc, (SFcompare_antisym _ _ _ Hc).
destruct c; simpl; congruence.
Qed.

Lemma SFleb_false_ltb x y : Float.is_nan x = false -> Float.is_nan y = false -> SFleb x y = false -> SFltb y x = true.
Proof.
intros Hx Hy. destruct (SFcompare_some x y Hx Hy) as [c Hc].
unfold SFltb, SFleb. rewrite Hc, (SFcompare_antisym _ _ _ Hc).
destruct c; simpl; congruence.
Qed.

Lemma SFltb_asym x y : SFltb x y = true -> SFltb y x = false.
Proof.
unfold SFltb. destruct (SFcompare x y) as [c|] eqn:Hc; [|discriminate].
rewrite (SFcompare_antisym _ _ _ Hc). destruct c; simpl; congruence.
Qed.

Lemma lex_le_trans e1 m1 e2 m2 e3 m3 :
lex e1 m1 e2 m2 <> Gt -> lex e2 m2 e3 m3 <> Gt -> lex e1 m1 e3 m3 <> Gt.
Proof.
rewrite !lex_Gt. intros H1 H2 H3.
assert (e1 <= e2) by lia. assert (e2 <= e3) by lia.
destruct H3 as [H3|[H3 H4]]; [lia|]. subst e3. assert (e2 = e1) by lia. subst e2.
assert (~ (m2 < m1)%positive) by tauto. assert (~ (m3 < m2)%positive) by tauto. lia.
Qed.

Lemma lex_ge_trans e1 m1 e2 m2 e3 m3 :
lex e1 m1 e2 m2 <> Lt -> lex e2 m2 e3 m3 <> Lt -> lex e1 m1 e3 m3 <> Lt.
Proof.
rewrite !lex_Lt. intros H1 H2 H3.
assert (e2 <= e1) by lia. assert (e3 <= e2) by lia.
destruct H3 as [H3|[H3 H4]]; [lia|]. subst e3. assert (e2 = e1) by lia. subst e2.
assert (~ (m1 < m2)%positive) by tauto. assert (~ (m2 < m3)%positive) by tauto. lia.
Qed.

Lemma SFleb_trans x y z : SFleb x y = true -> SFleb y z = true -> SFleb x z = true.
Proof.
unfold SFleb.
destruct x as [sx|sx| |sx mx ex], y as [sy|sy| |sy my ey], z as [sz|sz| |sz mz ez];
  rewrite ?SFcompare_finite; 
  try (simpl; intros; try discriminate; auto;
       destruct sx; try destruct sy; try destruct sz; simpl in *; congruence).
intros H1 H2.
pose proof (lex_le_trans ex mx ey my ez mz) as HL.
pose proof (lex_ge_trans ex mx ey my ez mz) as HG.
destruct sx, sy, sz; simpl in *; try congruence;
  destruct (lex ex mx ey my), (lex ey my ez mz); simpl in *; try congruence;
  destruct (lex ex mx ez mz); simpl; auto;
  try (exfalso; apply HL; congruence); try (exfalso; apply HG; congruence).
Qed.

End FloatOrder.

(** ** Search *)

Section Sorting.

Lemma ins_Permutation x rp : Permutation (ins x rp) (x :: rp).
Proof.
  induction rp as [|y rp IH]; simpl; [reflexivity|].
  destruct (less x y); [|reflexivity].
  rewrite IH. apply perm_swap.
Qed.

Lemma fold_ins_Permutation l acc :
  Permutation (fold_left (fun rp x => ins x rp) l acc) (rev l ++ acc).
Proof.
  revert acc; induction l as [|x l IH]; intros acc; simpl; [reflexivity|].
  rewrite IH, ins_Permutation, <- app_assoc. simpl.
  apply Permutation_app_head. reflexivity.
Qed.

Lemma sort_Slice_Permutation l : Permutation (sort_Slice l) l.
Proof.
  unfold sort_Slice. rewrite <- Permutation_rev, fold_ins_Permutation, app_nil_r.
  symmetry. apply Permutation_rev.
Qed.

Lemma score_ge_trans a b c : score_ge a b -> score_ge b c -> score_ge a c.
Proof. unfold score_ge, Float.geb. intros H1 H2. exact (SFleb_trans _ _ _ H2 H1). Qed.

Lemma not_less_score_ge x y :
  Float.is_nan (r_Score x) = false -> Float.is_nan (r_Score y) = false ->
  less x y = false -> score_ge y x.
Proof.
  unfold less, score_ge, Float.gtb, Float.geb. intros Hx Hy H.
  apply SFltb_false_leb; assumption.
Qed.

Lemma less_score_ge x y : less x y = true -> score_ge x y.
Proof. unfold less, score_ge, Float.gtb, Float.geb. apply SFltb_leb. Qed.

Lemma ins_ascending x rp :
  Float.is_nan (r_Score x) = false -> numbers rp ->
  ascending rp -> ascending (ins x rp).
Proof.
  intros Hx Hn Hs. induction Hs as [|y rp Hs IH Hy]; simpl.
  - constructor; [constructor | constructor].
  - inversion Hn as [|? ? Hny Hnrp]; subst.
    destruct (less x y) eqn:Hl.
    + constructor; [apply IH; assumption|].
      eapply Permutation_Forall; [symmetry; apply ins_Permutation|].
      constructor; [apply less_score_ge; exact Hl | exact Hy].
    + assert (Hyx : score_ge y x) by (apply not_less_score_ge; assumption).
      constructor; [constructor; assumption|].
      constructor; [exact Hyx|].
      eapply Forall_impl; [exact Hy|]. intros z Hz. cbv beta in Hz.
      eapply score_ge_trans; eassumption.
Qed.

Lemma fold_ins_ascending l acc :
  numbers l -> numbers acc -> ascending acc ->
  ascending (fold_left (fun rp x => ins x rp) l acc).
Proof.
  revert acc; induction l as [|x l IH]; intros acc Hl Ha Hs; simpl; [exact Hs|].
  inversion Hl as [|? ? Hx Hl']; subst.
  apply IH; [exact Hl' | | apply ins_ascending; assumption].
  eapply Permutation_Forall; [symmetry; apply ins_Permutation|].
  constructor; assumption.
Qed.

Lemma StronglySorted_app_single {A} (R : A -> A -> Prop) l x :
  StronglySorted R l -> Forall (fun y => R y x) l -> StronglySorted R (l ++ [x]).
Proof.
  induction 1 as [|y l Hs IH Hy]; intros Hall; simpl.
  - constructor; constructor.
  - inversion Hall; subst. constructor; [apply IH; assumption|].
    apply Forall_app; split; [exact Hy | constructor; [assumption | constructor]].
Qed.

Lemma StronglySorted_rev {A} (R : A -> A -> Prop) l :
  StronglySorted R l -> StronglySorted (fun a b => R b a) (rev l).
Proof.
  induction 1 as [|y l Hs IH Hy]; simpl; [constructor|].
  apply StronglySorted_app_single; [exact IH|].
  apply Forall_rev. exact Hy.
Qed.

(** [sort.Slice] leaves the results in descending order of score, as
    long as no score is NaN. *)
Lemma sort_Slice_sorted l :
  numbers l -> StronglySorted score_ge (sort_Slice l).
Proof.
  intros Hn. unfold sort_Slice.
  apply (StronglySorted_rev (fun a b => score_ge b a)).
  apply fold_ins_ascending; [exact Hn | constructor | constructor].
Qed.

End Sorting.

Section SearchProps.
Implicit Types (memory : gmap string Chunk) (visit : list (string * Chunk)).

Lemma candidate_Some q thr c r :
  candidate q thr c = Some r <-> qualifies q thr c /\ r = result_of q c.
Proof.
  unfold candidate, qualifies, result_of.
  destruct (Embedding c) as [|e es] eqn:He; simpl.
  - split; [discriminate | intros [[H _] _]; congruence].
  - destruct (Float.geb _ thr) eqn:Hg; split.
    + intros [= <-]. repeat split; congruence.
    + intros [_ ->]. reflexivity.
    + discriminate.
    + intros [[_ H] _]. discriminate.
Qed.

Lemma elem_of_candidates visit q thr r :
  r ∈ candidates visit q thr <->
  exists k c, ((k, c) ∈ visit) /\ qualifies q thr c /\ r = result_of q c.
Proof.
  unfold candidates. rewrite list_elem_of_omap. split.
  - intros ([k c] & Hin & Hc). apply candidate_Some in Hc. exists k, c. tauto.
  - intros (k & c & Hin & Hq & ->). exists (k, c). split; [exact Hin|].
    apply candidate_Some. auto.
Qed.

Lemma candidates_numbers visit q thr : numbers (candidates visit q thr).
Proof.
  apply Forall_forall. intros r Hr.
  apply elem_of_candidates in Hr as (k & c & _ & [_ Hg] & ->). simpl.
  unfold Float.geb in Hg. apply SFleb_ok in Hg as [_ Hn]. exact Hn.
Qed.

Lemma visits_lookup memory visit k c :
  visits memory visit -> ((k, c) ∈ visit <-> memory !! k = Some c).
Proof.
  unfold visits. intros Hv. rewrite Hv. apply elem_of_map_to_list.
Qed.

Lemma candidates_Permutation visit1 visit2 q thr :
  visit1 ≡ₚ visit2 -> candidates visit1 q thr ≡ₚ candidates visit2 q thr.
Proof. intros H. unfold candidates. rewrite H. reflexivity. Qed.

(** With [topK >= 0] the slice expression is in range. *)
Lemma Search_nonneg visit q topK thr :
  0 <= topK ->
  Search visit q topK thr
  = Ok (take (Z.to_nat topK) (sort_Slice (candidates visit q thr))).
Proof.
  intros Hk. unfold Search.
  set (results := sort_Slice (candidates visit q thr)).
  destruct (Z.of_nat (length results) >? topK) eqn:Hlen.
  - assert (Hneg : (topK <? 0) = false) by (apply Z.ltb_ge; exact Hk).
    rewrite Hneg. reflexivity.
  - rewrite take_ge; [reflexivity|].
    rewrite Z.gtb_ltb in Hlen. apply Z.ltb_ge in Hlen. lia.
Qed.

Lemma StronglySorted_app_cross {A} (R : A -> A -> Prop) l1 l2 a b :
  StronglySorted R (l1 ++ l2) -> a ∈ l1 -> b ∈ l2 -> R a b.
Proof.
  induction l1 as [|x l1 IH]; simpl; intros Hs Ha Hb.
  - inversion Ha.
  - inversion Hs as [|? ? Hs' Hx]; subst.
    apply elem_of_cons in Ha as [->|Ha]; [|apply IH; assumption].
    rewrite Forall_forall in Hx. apply Hx. apply elem_of_app. right. exact Hb.
Qed.

Lemma StronglySorted_take {A} (R : A -> A -> Prop) n l :
  StronglySorted R l -> StronglySorted R (take n l).
Proof.
  intros Hs. revert n. induction Hs as [|x l Hs IH Hx]; intros [|n]; simpl;
    try constructor; [apply IH|].
  apply Forall_take. exact Hx.
Qed.

End SearchProps.

(** C4 (as amended: [topK >= 0]).  For every mirror, order of visit of
    its entries, query, threshold and [topK >= 0], [Search] returns
    without error the first [topK] elements of a list that holds one
    result per entry of the mirror with a non-empty embedding and a score
    [>=] the threshold, sorted by descending score.  So no returned chunk
    has an empty embedding, every result left out scores no higher than
    any result returned, and when no entry qualifies the result is the
    empty sequence. *)
Theorem Search_spec (memory : gmap string Chunk) (visit : list (string * Chunk))
    (q : list Float.f32) (topK : Z) (thr : Float.f64) :
  visits memory visit -> 0 <= topK ->
  exists results sorted,
    Search visit q topK thr = Ok results
    /\ results = take (Z.to_nat topK) sorted
    /\ sorted ≡ₚ candidates visit q thr
    /\ (forall r, r ∈ sorted <->
          exists k c, memory !! k = Some c /\ qualifies q thr c /\ r = result_of q c)
    /\ StronglySorted score_ge sorted
    /\ StronglySorted score_ge results
    /\ Z.of_nat (length results) <= topK
    /\ (forall r, r ∈ results ->
          Embedding (r_Chunk r) <> [] /\ Float.geb (r_Score r) thr = true)
    /\ (forall r r', r ∈ results -> r' ∈ drop (Z.to_nat topK) sorted -> score_ge r r')
    /\ ((forall k c, memory !! k = Some c -> ~ qualifies q thr c) -> results = []).
Proof.
  intros Hv Hk.
  set (sorted := sort_Slice (candidates visit q thr)).
  exists (take (Z.to_nat topK) sorted), sorted.
  assert (Hperm : sorted ≡ₚ candidates visit q thr) by apply sort_Slice_Permutation.
  assert (Hsorted : StronglySorted score_ge sorted)
    by (apply sort_Slice_sorted, candidates_numbers).
  assert (Hmem : forall r, r ∈ sorted <->
            exists k c, memory !! k = Some c /\ qualifies q thr c /\ r = result_of q c).
  { intros r. rewrite Hperm, elem_of_candidates. split.
    - intros (k & c & Hin & Hq & ->). exists k, c.
      split; [apply (visits_lookup memory visit); assumption | auto].
    - intros (k & c & Hin & Hq & ->). exists k, c.
      split; [apply (visits_lookup memory visit); assumption | auto]. }
  split; [apply Search_nonneg; exact Hk|].
  split; [reflexivity|].
  split; [exact Hperm|].
  split; [exact Hmem|].
  split; [exact Hsorted|].
  split; [apply StronglySorted_take; exact Hsorted|].
  split; [rewrite length_take; lia|].
  split.
  { intros r Hr. apply elem_of_take in Hr as (i & Hr & _).
    apply list_elem_of_lookup_2 in Hr. apply Hmem in Hr as (k & c & _ & [He Hg] & ->).
    simpl. auto. }
  split.
  { intros r r' Hr Hr'.
    apply (StronglySorted_app_cross score_ge (take (Z.to_nat topK) sorted)
             (drop (Z.to_nat topK) sorted)); [|assumption|assumption].
    rewrite take_drop. exact Hsorted. }
  intros Hnone.
  destruct sorted as [|r rest] eqn:Hs; [apply take_nil|].
  exfalso. assert (Hr : r ∈ r :: rest) by (apply elem_of_cons; left; reflexivity).
  apply Hmem in Hr as (k & c & Hin & Hq & _). exact (Hnone k c Hin Hq).
Qed.

Lemma Sample_visits :
  visits Sample.memory3 Sample.visit_abc /\ visits Sample.memory3 Sample.visit_bac.
Proof.
  assert (H : visits Sample.memory3 Sample.visit_abc).
  { unfold visits, Sample.memory3, Sample.visit_abc.
    rewrite !map_to_list_insert, map_to_list_empty by (vm_compute; reflexivity).
    reflexivity. }
  split; [exact H|].
  unfold visits in *. rewrite <- H. apply perm_swap.
Qed.

Lemma Search_spec_witness :
  exists results sorted,
    Search Sample.visit_abc Sample.e1 2 Sample.half = Ok results
    /\ results = take 2 sorted
    /\ StronglySorted score_ge results
    /\ (forall r, r ∈ results -> Embedding (r_Chunk r) <> []).
Proof.
  destruct (Search_spec Sample.memory3 Sample.visit_abc Sample.e1 2 Sample.half)
    as (results & sorted & H1 & H2 & _ & _ & _ & H5 & _ & H7 & _).
  - apply Sample_visits.
  - lia.
  - exists results, sorted. repeat split; try assumption.
    intros r Hr. apply (H7 r Hr).
Defined.

(** C4 as stated ranges over every [topK]: with a negative [topK] the
    slice expression [results[:topK]] is out of range and the call
    panics, whatever the mirror holds. *)
Lemma Search_negative_topK_panics :
  Search [] Sample.e1 (-1) Sample.half = Panic
  /\ Search Sample.visit_abc Sample.e1 (-1) Sample.half = Panic.
Proof. split; vm_compute; reflexivity. Qed.

(** C10.  With [topK = 0] the result is empty whatever passes the
    threshold; for every [topK >= 0] the call returns, with a nil error,
    at most [topK] results. *)
Theorem Search_total (visit : list (string * Chunk)) (q : list Float.f32)
    (topK : Z) (thr : Float.f64) :
  0 <= topK ->
  exists results,
    Search visit q topK thr = Ok results
    /\ Z.of_nat (length results) <= topK
    /\ (topK = 0 -> results = []).
Proof.
  intros Hk. eexists. split; [apply Search_nonneg; exact Hk|].
  split; [rewrite length_take; lia|].
  intros ->. reflexivity.
Qed.

Lemma Search_total_witness :
  exists results,
    Search Sample.visit_abc Sample.e1 0 Sample.half = Ok results /\ results = [].
Proof.
  destruct (Search_total Sample.visit_abc Sample.e1 0 Sample.half) as (r & H1 & _ & H3).
  - lia.
  - exists r. split; [exact H1 | apply H3; reflexivity].
Defined.

Section Determinism.

Lemma NoTies_Permutation l l' : Permutation l l' -> NoTies l -> NoTies l'.
Proof.
  unfold NoTies. induction 1 as [|x l l' Hp IH|x y l|l l' l'' Hp1 IH1 Hp2 IH2]; intros H.
  - exact H.
  - inversion H as [|? ? Hx Hl]; subst. constructor; [|apply IH; exact Hl].
    eapply Permutation_Forall; eassumption.
  - inversion H as [|? ? Hy Hl]; subst. inversion Hl as [|? ? Hx Hl']; subst.
    inversion Hy as [|? ? Hyx Hyl]; subst.
    constructor; [constructor; [tauto | exact Hx]|].
    constructor; assumption.
  - auto.
Qed.

Lemma score_ge_not_less a b : score_ge a b -> less b a = false.
Proof.
  unfold score_ge, less, Float.geb, Float.gtb, SFleb, SFltb.
  destruct (SFcompare (r_Score b) (r_Score a)) as [c|] eqn:Hc; [|discriminate].
  rewrite (SFcompare_antisym _ _ _ Hc). destruct c; simpl; congruence.
Qed.

Lemma less_asym a b : less a b = true -> less b a = false.
Proof. unfold less, Float.gtb. apply SFltb_asym. Qed.

Lemma strictly_sorted l :
  StronglySorted score_ge l -> NoTies l ->
  StronglySorted (fun a b => less a b = true) l.
Proof.
  unfold NoTies. induction 1 as [|x l Hs IH Hx]; intros Hn; [constructor|].
  inversion Hn as [|? ? Hnx Hnl]; subst. constructor; [apply IH; exact Hnl|].
  rewrite Forall_forall in *. intros b Hb.
  destruct (Hnx b Hb) as [H|H]; [exact H|].
  rewrite (score_ge_not_less x b (Hx b Hb)) in H. discriminate.
Qed.

Lemma strictly_sorted_unique l1 l2 :
  StronglySorted (fun a b => less a b = true) l1 ->
  StronglySorted (fun a b => less a b = true) l2 ->
  Permutation l1 l2 -> l1 = l2.
Proof.
  intros H1; revert l2; induction H1 as [|a l1 Hs1 IH Ha]; intros l2 H2 Hp.
  - apply Permutation_nil in Hp. congruence.
  - destruct l2 as [|b l2]; [apply Permutation_sym, Permutation_nil in Hp; discriminate|].
    inversion H2 as [|? ? Hs2 Hb]; subst.
    assert (Hab : a = b).
    { assert (Hin : In a (b :: l2)) by (eapply Permutation_in; [exact Hp | left; reflexivity]).
      destruct Hin as [Heq|Hin]; [congruence|].
      assert (Hin' : In b (a :: l1))
        by (eapply Permutation_in; [symmetry; exact Hp | left; reflexivity]).
      destruct Hin' as [Heq|Hin']; [congruence|].
      rewrite List.Forall_forall in Ha, Hb.
      pose proof (Ha b Hin') as Hlt1. pose proof (Hb a Hin) as Hlt2.
      rewrite (less_asym _ _ Hlt1) in Hlt2. discriminate. }
    subst b. f_equal. apply IH; [exact Hs2|].
    eapply Permutation_cons_inv; exact Hp.
Qed.

End Determinism.

(** C5 (as amended).  For a fixed mirror and fixed inputs, two runs of
    [Search], whatever the order in which each visits the entries of the
    mirror, return identical result sequences provided no two qualifying
    results tie on score. *)
Theorem Search_deterministic_without_ties (memory : gmap string Chunk)
    (visit1 visit2 : list (string * Chunk)) (q : list Float.f32) (topK : Z)
    (thr : Float.f64) :
  visits memory visit1 -> visits memory visit2 ->
  NoTies (candidates visit1 q thr) ->
  Search visit1 q topK thr = Search visit2 q topK thr.
Proof.
  intros Hv1 Hv2 Hn.
  assert (Hp : candidates visit1 q thr ≡ₚ candidates visit2 q thr).
  { apply candidates_Permutation. unfold visits in *. rewrite Hv1, Hv2. reflexivity. }
  assert (Heq : sort_Slice (candidates visit1 q thr) = sort_Slice (candidates visit2 q thr)).
  { apply strictly_sorted_unique.
    - apply strictly_sorted; [apply sort_Slice_sorted, candidates_numbers|].
      eapply NoTies_Permutation; [symmetry; apply sort_Slice_Permutation | exact Hn].
    - apply strictly_sorted; [apply sort_Slice_sorted, candidates_numbers|].
      eapply NoTies_Permutation; [|exact Hn].
      rewrite Hp. symmetry. apply sort_Slice_Permutation.
    - rewrite !sort_Slice_Permutation. exact Hp. }
  unfold Search. rewrite Heq. reflexivity.
Qed.

Lemma Search_deterministic_without_ties_witness :
  Search [("a_0", Sample.ca); ("c_0", Sample.cc)] Sample.e1 1 Float.zero
  = Search [("c_0", Sample.cc); ("a_0", Sample.ca)] Sample.e1 1 Float.zero.
Proof.
  apply (Search_deterministic_without_ties
           (<["a_0" := Sample.ca]> (<["c_0" := Sample.cc]> ∅))).
  - unfold visits.
    rewrite !map_to_list_insert, map_to_list_empty by (vm_compute; reflexivity).
    reflexivity.
  - unfold visits.
    rewrite !map_to_list_insert, map_to_list_empty by (vm_compute; reflexivity).
    apply perm_swap.
  - assert (Hc : candidates [("a_0", Sample.ca); ("c_0", Sample.cc)] Sample.e1 Float.zero
                 = [result_of Sample.e1 Sample.ca; result_of Sample.e1 Sample.cc])
      by (vm_compute; reflexivity).
    rewrite Hc. constructor; [|constructor; [constructor|constructor]].
    constructor; [left; vm_compute; reflexivity | constructor].
Defined.

(** C5 as stated fails when scores tie: the same mirror, visited in two
    orders, gives different answers to the same query (the chunk of
    document a in one run, the chunk of document b in the other). *)
Lemma Search_tie_counterexample :
  visits Sample.memory3 Sample.visit_abc
  /\ visits Sample.memory3 Sample.visit_bac
  /\ Search Sample.visit_abc Sample.e1 1 Sample.half
     = Ok [result_of Sample.e1 Sample.ca]
  /\ Search Sample.visit_bac Sample.e1 1 Sample.half
     = Ok [result_of Sample.e1 Sample.cb]
  /\ Search Sample.visit_abc Sample.e1 1 Sample.half
     <> Search Sample.visit_bac Sample.e1 1 Sample.half.
Proof.
  split; [apply Sample_visits|]. split; [apply Sample_visits|].
  assert (H1 : Search Sample.visit_abc Sample.e1 1 Sample.half
               = Ok [result_of Sample.e1 Sample.ca]) by (vm_compute; reflexivity).
  assert (H2 : Search Sample.visit_bac Sample.e1 1 Sample.half
               = Ok [result_of Sample.e1 Sample.cb]) by (vm_compute; reflexivity).
  split; [exact H1|]. split; [exact H2|].
  rewrite H1, H2. intros H. inversion H.
Qed.

(** ** The vector store *)

Section StoreProps.
Context {blob : Type} {codec : Codec blob} {laws : CodecLaws codec}.

Lemma consistent_agree (vs : @VectorStore blob) :
  consistent vs <-> agree (db vs) (memory vs).
Proof. reflexivity. Qed.

Lemma agree_insert bucket mem k v c :
  agree bucket mem -> gob_decode v = Some c ->
  agree (<[k := v]> bucket) (<[k := c]> mem).
Proof.
  intros Ha Hd k'. destruct (decide (k = k')) as [->|Hne].
  - rewrite !lookup_insert_eq. exact Hd.
  - rewrite !lookup_insert_ne by exact Hne. apply Ha.
Qed.

Lemma bucket_Put_Ok bucket key value bucket' :
  bucket_Put bucket key value = Ok bucket' -> bucket' = <[key := value]> bucket.
Proof.
  unfold bucket_Put.
  destruct (Nat.eqb _ 0); [discriminate|].
  destruct (_ >? MaxKeySize); [discriminate|].
  destruct (_ >? MaxValueSize); [discriminate|].
  intros [= <-]. reflexivity.
Qed.

(** When the loop of [AddChunks] ends without error, the transaction's
    bucket and the map still agree. *)
Lemma AddChunks_loop_agree chunks bucket mem bucket' mem' :
  agree bucket mem ->
  AddChunks_loop chunks bucket mem = (None, bucket', mem') ->
  agree bucket' mem'.
Proof.
  revert bucket mem. induction chunks as [|chunk rest IH]; intros bucket mem Ha; simpl.
  - intros [= <- <-]. exact Ha.
  - set (chunk' := if String.eqb (ID chunk) "" then set_ID chunk (chunk_key chunk) else chunk).
    destruct (gob_encode chunk') as [buf|] eqn:He; [|discriminate].
    destruct (bucket_Put bucket (ID chunk') buf) as [b1|e|] eqn:Hp; try discriminate.
    apply bucket_Put_Ok in Hp. subst b1. apply IH.
    apply agree_insert; [exact Ha | apply decode_encode; exact He].
Qed.

(** A successful [AddChunks] keeps the mirror and durable state in
    agreement. *)
Lemma AddChunks_Ok_consistent commit vs chunks vs' :
  consistent vs -> AddChunks commit vs chunks = (Ok tt, vs') -> consistent vs'.
Proof.
  unfold AddChunks. intros Hc.
  destruct (AddChunks_loop chunks (db vs) (memory vs)) as [[err b'] m'] eqn:Hl.
  destruct err as [e|]; [discriminate|].
  destruct commit; [|discriminate].
  intros [= <-]. apply consistent_agree. simpl.
  eapply AddChunks_loop_agree; [|exact Hl]. exact Hc.
Qed.

(** A successful [DeleteByDocumentID] keeps them in agreement too. *)
Lemma DeleteByDocumentID_Ok_consistent commit vs documentID vs' :
  consistent vs -> DeleteByDocumentID commit vs documentID = (Ok tt, vs') ->
  consistent vs'.
Proof.
  unfold DeleteByDocumentID. intros Hc. destruct commit; [|discriminate].
  intros [= <-] k. simpl. specialize (Hc k).
  set (del := toDelete (db vs) documentID).
  destruct (del !! k) eqn:Hk.
  - rewrite !(proj2 (map_lookup_filter_None _ _ _)); [exact I | |];
      right; intros x _; simpl; rewrite Hk; discriminate.
  - destruct (memory vs !! k) as [c|] eqn:Hm, (db vs !! k) as [v|] eqn:Hd;
      try contradiction.
    + rewrite (map_lookup_filter_Some_2 _ _ k c), (map_lookup_filter_Some_2 _ _ k v);
        auto.
    + rewrite !(proj2 (map_lookup_filter_None _ _ _)); auto.
Qed.

(** The store [NewVectorStore] returns has its mirror rebuilt from the
    bucket, in agreement with it. *)
Lemma NewVectorStore_consistent bucket vs :
  NewVectorStore bucket = Ok vs -> consistent vs.
Proof.
  unfold NewVectorStore, loadIntoMemory.
  destruct (decide _) as [Hall|]; [|discriminate].
  intros [= <-] k. simpl. rewrite lookup_omap.
  destruct (bucket !! k) as [v|] eqn:Hk; simpl; [|exact I].
  destruct (Hall k v Hk) as [c Hc]. rewrite Hc. reflexivity.
Qed.

End StoreProps.

#[global] Instance plain_codec_laws : CodecLaws plain_codec.
Proof. constructor. intros c b [= <-]. reflexivity. Qed.

(** C2, on the code.  [AddChunks] writes each chunk to the in-memory map
    inside the transaction, before the commit.  When a later chunk of the
    batch is refused (here its key is longer than bbolt's limit) the
    transaction is rolled back, yet the chunks already written to the map
    stay there: the call returns an error, the bucket is unchanged, the
    mirror holds a chunk that is not durable, and [Search] returns it.
    The same happens when the commit itself fails. *)
Theorem AddChunks_error_leaves_uncommitted :
  let '(r, vs) := SampleStore.AddChunks true SampleStore.empty_store
                    [Sample.ca; SampleStore.bad] in
  let '(r', vs') := SampleStore.AddChunks false SampleStore.empty_store [Sample.ca] in
  r = Err "key too large"
  /\ db vs = ∅
  /\ memory vs !! "a_0" = Some Sample.ca
  /\ ~ SampleStore.consistent vs
  /\ Search (map_to_list (memory vs)) Sample.e1 1 Sample.half
     = Ok [result_of Sample.e1 Sample.ca]
  /\ r' = Err "commit failed"
  /\ db vs' = ∅
  /\ memory vs' !! "a_0" = Some Sample.ca
  /\ ~ SampleStore.consistent vs'.
Proof.
  assert (H1 : SampleStore.AddChunks true SampleStore.empty_store
                 [Sample.ca; SampleStore.bad]
               = (Err "key too large", mkStore ∅ (<["a_0" := Sample.ca]> ∅))).
  { vm_compute. reflexivity. }
  assert (H2 : SampleStore.AddChunks false SampleStore.empty_store [Sample.ca]
               = (Err "commit failed", mkStore ∅ (<["a_0" := Sample.ca]> ∅))).
  { vm_compute. reflexivity. }
  rewrite H1, H2. cbn [db memory].
  assert (Hinc : ~ SampleStore.consistent (mkStore ∅ (<["a_0" := Sample.ca]> ∅))).
  { intros Hc. specialize (Hc "a_0"). cbn [db memory] in Hc.
    rewrite lookup_insert_eq, lookup_empty in Hc. exact Hc. }
  repeat split; try assumption; try reflexivity.
  all: try apply lookup_insert_eq.
  all: try (rewrite insert_empty, map_to_list_singleton; vm_compute; reflexivity).
Qed.

(** ** Fixed chunking *)

Section ChunkerProps.

Lemma wrap64_id (z : Z) : - 2 ^ 63 <= z < 2 ^ 63 -> wrap64 z = z.
Proof.
  intros H. unfold wrap64. rewrite Z.mod_small; lia.
Qed.

Lemma slice_Some {A} (l : list A) (i e : Z) :
  0 <= i -> i <= e -> e <= Z.of_nat (length l) ->
  slice l i e = Some (take (Z.to_nat (e - i)) (drop (Z.to_nat i) l)).
Proof.
  intros H1 H2 H3. unfold slice.
  assert ((0 <=? i) = true) as -> by lia.
  assert ((i <=? e) = true) as -> by lia.
  assert ((e <=? Z.of_nat (length l)) = true) as -> by lia.
  reflexivity.
Qed.

Lemma slice_negative {A} (l : list A) (i e : Z) : i < 0 -> slice l i e = None.
Proof.
  intros H. unfold slice. assert ((0 <=? i) = false) as -> by lia. reflexivity.
Qed.

Lemma slice_backwards {A} (l : list A) (i e : Z) : e < i -> slice l i e = None.
Proof.
  intros H. unfold slice. assert ((i <=? e) = false) as -> by lia.
  rewrite andb_false_r. reflexivity.
Qed.

(** One unfolding of [windows] on a text longer than the window. *)
Lemma windows_long (fuel : nat) (l : list rune) (size stride : nat) :
  (size < length l)%nat ->
  windows (S fuel) l size stride
  = take size l :: windows fuel (drop stride l) size stride.
Proof.
  intros H. simpl. destruct l as [|r l']; [simpl in H; lia|].
  assert (Nat.leb (length (r :: l')) size = false) as -> by (apply Nat.leb_gt; lia).
  reflexivity.
Qed.

(** One unfolding of [windows] on a nonempty text that fits the window. *)
Lemma windows_short (fuel : nat) (l : list rune) (size stride : nat) :
  l <> [] -> (length l <= size)%nat ->
  windows (S fuel) l size stride = [l].
Proof.
  intros Hl H. simpl. destruct l as [|r l']; [congruence|].
  assert (Nat.leb (length (r :: l')) size = true) as -> by (apply Nat.leb_le; lia).
  reflexivity.
Qed.

Lemma windows_nil (fuel : nat) (size stride : nat) : windows fuel [] size stride = [].
Proof. destruct fuel; reflexivity. Qed.

(** With a positive stride, any fuel above the length of the text gives
    the same windows. *)
Lemma windows_fuel (size stride : nat) (fuel1 fuel2 : nat) (l : list rune) :
  (0 < stride)%nat -> (length l < fuel1)%nat -> (length l < fuel2)%nat ->
  windows fuel1 l size stride = windows fuel2 l size stride.
Proof.
  intros Hs. revert fuel2 l.
  induction fuel1 as [|f1 IH]; intros fuel2 l H1 H2; [lia|].
  destruct fuel2 as [|f2]; [lia|].
  destruct (decide (l = [])) as [->|Hl]; [reflexivity|].
  destruct (decide (length l <= size)%nat) as [Hle|Hgt].
  - rewrite !windows_short by assumption. reflexivity.
  - rewrite !windows_long by lia. f_equal.
    assert (length l <> 0)%nat by (destruct l; simpl; [congruence|lia]).
    apply IH; rewrite length_drop; lia.
Qed.

(** The first window is a prefix of the text. *)
Lemma windows_head (fuel : nat) (l : list rune) (size stride : nat) :
  l <> [] -> exists rest, windows (S fuel) l size stride = take size l :: rest.
Proof.
  intros Hl. destruct (decide (length l <= size)%nat) as [Hle|Hgt].
  - exists []. rewrite windows_short by assumption. rewrite take_ge by lia. reflexivity.
  - eexists. rewrite windows_long by lia. reflexivity.
Qed.

(** Consecutive windows share exactly [overlap] code points. *)
Lemma windows_overlap (size stride overlap : nat) (fuel : nat) (l : list rune)
    (k : nat) (w1 w2 : list rune) :
  (0 < stride)%nat -> (stride + overlap = size)%nat -> (length l < fuel)%nat ->
  windows fuel l size stride !! k = Some w1 ->
  windows fuel l size stride !! S k = Some w2 ->
  length w1 = size /\ drop stride w1 = take overlap w2 /\ length (take overlap w2) = overlap.
Proof.
  intros Hs Hso. revert l k.
  induction fuel as [|f IH]; intros l k Hf H1 H2; [lia|].
  destruct (decide (l = [])) as [->|Hl]; [rewrite windows_nil in H1; discriminate|].
  assert (length l <> 0)%nat by (destruct l; simpl; [congruence|lia]).
  destruct (decide (length l <= size)%nat) as [Hle|Hgt].
  { rewrite windows_short in H2 by assumption. discriminate. }
  rewrite windows_long in H1, H2 by lia.
  destruct k as [|k'].
  - simpl in H1, H2. injection H1 as <-.
    assert (Hl' : drop stride l <> []).
    { intros E. apply (f_equal length) in E. rewrite length_drop in E. simpl in E. lia. }
    destruct f as [|f']; [lia|].
    destruct (windows_head f' (drop stride l) size stride Hl') as [rest Hw].
    rewrite Hw in H2. simpl in H2. injection H2 as <-.
    split; [rewrite length_take; lia|].
    split.
    + rewrite take_take. replace (overlap `min` size)%nat with overlap by lia.
      rewrite take_drop_commute. f_equal. f_equal. lia.
    + rewrite take_take, length_take, length_drop. lia.
  - simpl in H1, H2. apply (IH (drop stride l) k'); try assumption.
    rewrite length_drop. lia.
Qed.

(** Dropping the shared prefix of every window leaves the text without
    its first [overlap] code points. *)
Lemma windows_concat (size stride overlap : nat) (fuel : nat) (l : list rune) :
  (0 < stride)%nat -> (stride + overlap = size)%nat -> (length l < fuel)%nat ->
  concat (map (drop overlap) (windows fuel l size stride)) = drop overlap l.
Proof.
  intros Hs Hso. revert l.
  induction fuel as [|f IH]; intros l Hf; [lia|].
  destruct (decide (l = [])) as [->|Hl]; [simpl; rewrite drop_nil; reflexivity|].
  assert (length l <> 0)%nat by (destruct l; simpl; [congruence|lia]).
  destruct (decide (length l <= size)%nat) as [Hle|Hgt].
  - rewrite windows_short by assumption. simpl. apply app_nil_r.
  - rewrite windows_long by lia. simpl.
    rewrite IH by (rewrite length_drop; lia).
    rewrite drop_drop. replace (stride + overlap)%nat with size by lia.
    rewrite <- (take_drop size l) at 3.
    rewrite drop_app_le by (rewrite length_take; lia). reflexivity.
Qed.

(** The windows, joined accounting for overlap, give the text back. *)
Lemma windows_unoverlap (size stride overlap : nat) (fuel : nat) (l : list rune) :
  (0 < stride)%nat -> (stride + overlap = size)%nat -> (length l < fuel)%nat ->
  unoverlap overlap (windows fuel l size stride) = l.
Proof.
  intros Hs Hso Hf. destruct fuel as [|f]; [lia|].
  destruct (decide (l = [])) as [->|Hl]; [reflexivity|].
  assert (length l <> 0)%nat by (destruct l; simpl; [congruence|lia]).
  destruct (decide (length l <= size)%nat) as [Hle|Hgt].
  - rewrite windows_short by assumption. simpl. apply app_nil_r.
  - rewrite windows_long by lia. simpl.
    rewrite (windows_concat size stride overlap) by (try rewrite length_drop; lia).
    rewrite drop_drop. replace (stride + overlap)%nat with size by lia.
    apply take_drop.
Qed.

Lemma chunks_from_Content (doc : Document) (k : Z) (ws : list (list rune)) :
  map Content (chunks_from doc k ws) = map TrimSpace ws.
Proof.
  revert k. induction ws as [|w ws IH]; intros k; simpl; [reflexivity|].
  rewrite IH. reflexivity.
Qed.

(** The loop of [chunkFixed] from index [i] cuts the windows of the
    rest of the text. *)
Lemma chunkFixed_loop_windows (doc : Document) (runes : list rune) (size overlap : Z)
    (fuel : nat) (i : Z) (chunks : list Chunk) :
  0 <= overlap < size -> size < 2 ^ 63 -> Z.of_nat (length runes) < 2 ^ 62 ->
  0 <= i <= Z.of_nat (length runes) ->
  i = 0 \/ size < Z.of_nat (length runes) ->
  (Z.to_nat (Z.of_nat (length runes) - i) < fuel)%nat ->
  chunkFixed_loop fuel doc runes size overlap i chunks
  = Some (Ok (chunks ++ chunks_from doc (Z.of_nat (length chunks))
                (windows fuel (drop (Z.to_nat i) runes)
                   (Z.to_nat size) (Z.to_nat (size - overlap))))).
Proof.
  intros Ho Hsz Hlen. revert i chunks.
  induction fuel as [|f IH]; intros i chunks Hi Hinv Hf; [lia|].
  cbn [chunkFixed_loop]. cbv zeta.
  destruct (i <? Z.of_nat (length runes)) eqn:Hlt.
  2:{ assert (i = Z.of_nat (length runes)) as -> by lia.
      rewrite Nat2Z.id, drop_all, windows_nil. simpl. rewrite app_nil_r. reflexivity. }
  apply Z.ltb_lt in Hlt.
  assert (Hw : wrap64 (i + size) = i + size) by (apply wrap64_id; lia).
  rewrite Hw.
  set (l := drop (Z.to_nat i) runes).
  assert (Hll : Z.of_nat (length l) = Z.of_nat (length runes) - i).
  { unfold l. rewrite length_drop. lia. }
  assert (Hl : l <> []).
  { intros E. rewrite E in Hll. simpl in Hll. lia. }
  destruct (i + size >? Z.of_nat (length runes)) eqn:Hgt.
  - rewrite slice_Some by lia. fold l.
    rewrite take_ge by lia.
    assert ((Z.of_nat (length runes) >=? Z.of_nat (length runes)) = true) as -> by lia.
    rewrite windows_short by (try assumption; lia). reflexivity.
  - rewrite slice_Some by lia. fold l.
    replace (Z.to_nat (i + size - i)) with (Z.to_nat size) by lia.
    destruct (i + size >=? Z.of_nat (length runes)) eqn:Hge.
    + rewrite windows_short by (try assumption; lia).
      rewrite take_ge by lia. reflexivity.
    + rewrite windows_long by lia.
      assert (Hst : wrap64 (size - overlap) = size - overlap) by (apply wrap64_id; lia).
      rewrite Hst.
      assert (Hi' : wrap64 (i + (size - overlap)) = i + (size - overlap))
        by (apply wrap64_id; lia).
      rewrite Hi'.
      rewrite IH by lia.
      rewrite length_app. simpl length.
      unfold l. rewrite drop_drop.
      replace (Z.to_nat i + Z.to_nat (size - overlap))%nat
        with (Z.to_nat (i + (size - overlap))) by lia.
      rewrite <- app_assoc. simpl.
      replace (Z.of_nat (length chunks + 1)) with (Z.of_nat (length chunks) + 1) by lia.
      reflexivity.
Qed.

(** With [size = overlap >= 0] and a text longer than the window the
    index never advances: no amount of fuel ends the loop. *)
Lemma chunkFixed_loop_zero_stride (doc : Document) (runes : list rune) (size : Z)
    (fuel : nat) (chunks : list Chunk) :
  0 <= size < Z.of_nat (length runes) -> Z.of_nat (length runes) < 2 ^ 63 ->
  chunkFixed_loop fuel doc runes size size 0 chunks = None.
Proof.
  intros Hs Hlen. revert chunks.
  induction fuel as [|f IH]; intros chunks; [reflexivity|].
  cbn [chunkFixed_loop]. cbv zeta.
  assert ((0 <? Z.of_nat (length runes)) = true) as -> by lia.
  rewrite Z.add_0_l, (wrap64_id size) by lia.
  assert ((size >? Z.of_nat (length runes)) = false) as -> by lia.
  rewrite slice_Some by lia.
  assert ((size >=? Z.of_nat (length runes)) = false) as -> by lia.
  rewrite Z.sub_diag. change (wrap64 0) with 0. change (wrap64 (0 + 0)) with 0.
  apply IH.
Qed.

(** With [size < overlap], or a negative [size], and a nonempty text
    longer than the window, a slice expression is out of range by the second
    iteration. *)
Lemma chunkFixed_negative_stride (doc : Document) (runes : list rune) (size overlap : Z)
    (fuel : nat) :
  - 2 ^ 63 <= size -> overlap < 2 ^ 63 -> size <= overlap ->
  size < overlap \/ size < 0 ->
  0 < Z.of_nat (length runes) ->
  size < Z.of_nat (length runes) -> Z.of_nat (length runes) < 2 ^ 63 ->
  (2 <= fuel)%nat ->
  chunkFixed fuel doc runes size overlap = Some Panic.
Proof.
  intros Hs Ho Hle Hneg Hne Hlt Hlen Hf.
  destruct fuel as [|[|f]]; [lia|lia|].
  unfold chunkFixed. cbn [chunkFixed_loop]. cbv zeta.
  assert ((0 <? Z.of_nat (length runes)) = true) as -> by lia.
  rewrite Z.add_0_l, (wrap64_id size) by lia.
  assert ((size >? Z.of_nat (length runes)) = false) as -> by lia.
  destruct (Z.lt_ge_cases size 0) as [Hn|Hp].
  - rewrite slice_backwards by lia. reflexivity.
  - rewrite slice_Some by lia.
    assert ((size >=? Z.of_nat (length runes)) = false) as -> by lia.
    rewrite (wrap64_id (size - overlap)) by lia.
    rewrite Z.add_0_l, (wrap64_id (size - overlap)) by lia.
    assert ((size - overlap <? Z.of_nat (length runes)) = true) as -> by lia.
    rewrite slice_negative by lia. reflexivity.
Qed.

Lemma trimLeft_id (s : list rune) :
  Forall (fun r => isSpace r = false) s -> trimLeft s = s.
Proof.
  intros H. destruct H as [|r s' Hr _]; simpl; [reflexivity|].
  rewrite Hr. reflexivity.
Qed.

(** [TrimSpace] leaves a string without white space as it is. *)
Lemma TrimSpace_id (s : list rune) :
  Forall (fun r => isSpace r = false) s -> TrimSpace s = s.
Proof.
  intros H. unfold TrimSpace. rewrite (trimLeft_id s H).
  rewrite trimLeft_id by (apply Forall_rev; exact H).
  apply rev_involutive.
Qed.

Lemma windows_Forall (P : rune -> Prop) (size stride : nat) (fuel : nat) (l : list rune) :
  Forall P l -> Forall (Forall P) (windows fuel l size stride).
Proof.
  revert l. induction fuel as [|f IH]; intros l H; [constructor|].
  simpl. destruct l as [|r l']; [constructor|].
  destruct (Nat.leb (length (r :: l')) size).
  - constructor; [exact H|constructor].
  - constructor; [apply Forall_take; exact H|apply IH, Forall_drop; exact H].
Qed.

End ChunkerProps.

(** C8 (amended).  With [0 <= overlap < size], [chunkFixed] returns; the
    contents of its chunks are the windows of the text, each with the
    white space at its two ends removed; the windows, joined accounting
    for overlap, are the text; consecutive windows share exactly
    [overlap] code points, every window before the last being [size]
    long; and on a text without white space the chunk contents are the
    windows themselves. *)
Theorem chunkFixed_windows (doc : Document) (runes : list rune) (size overlap : Z)
    (fuel : nat) :
  0 <= overlap < size -> size < 2 ^ 63 ->
  Z.of_nat (length runes) < 2 ^ 62 -> (length runes < fuel)%nat ->
  let ws := fixed_windows runes size overlap in
  exists chunks,
    chunkFixed fuel doc runes size overlap = Some (Ok chunks)
    /\ map Content chunks = map TrimSpace ws
    /\ unoverlap (Z.to_nat overlap) ws = runes
    /\ (forall k w1 w2, ws !! k = Some w1 -> ws !! S k = Some w2 ->
          Z.of_nat (length w1) = size
          /\ drop (Z.to_nat (size - overlap)) w1 = take (Z.to_nat overlap) w2
          /\ Z.of_nat (length (take (Z.to_nat overlap) w2)) = overlap)
    /\ (Forall (fun r => isSpace r = false) runes -> map Content chunks = ws).
Proof.
  intros Ho Hs Hlen Hf ws.
  assert (Hst : (0 < Z.to_nat (size - overlap))%nat) by lia.
  assert (Hso : (Z.to_nat (size - overlap) + Z.to_nat overlap = Z.to_nat size)%nat) by lia.
  exists (chunks_from doc 0 ws). split; [|split; [|split; [|split]]].
  - unfold chunkFixed.
    rewrite chunkFixed_loop_windows by (simpl; lia).
    simpl. unfold ws, fixed_windows. f_equal. f_equal. f_equal.
    apply windows_fuel; lia.
  - apply chunks_from_Content.
  - apply (windows_unoverlap (Z.to_nat size) (Z.to_nat (size - overlap))); lia.
  - intros k w1 w2 H1 H2.
    destruct (windows_overlap (Z.to_nat size) (Z.to_nat (size - overlap)) (Z.to_nat overlap)
                (S (length runes)) runes k w1 w2 Hst Hso (Nat.lt_succ_diag_r _) H1 H2)
      as (Ha & Hb & Hc).
    repeat split; [lia|exact Hb|lia].
  - intros Hns. rewrite chunks_from_Content.
    assert (Hall := windows_Forall _ (Z.to_nat size) (Z.to_nat (size - overlap))
                      (S (length runes)) runes Hns).
    fold (fixed_windows runes size overlap) in Hall. fold ws in Hall.
    clearbody ws. induction Hall as [|w ws' Hw _ IH]; simpl; [reflexivity|].
    rewrite TrimSpace_id by exact Hw. rewrite IH. reflexivity.
Qed.

Lemma chunkFixed_windows_witness :
  contents_of (chunkFixed 6 (SampleText.doc SampleText.abcde) SampleText.abcde 3 1)
  = Some [[97; 98; 99]; [99; 100; 101]].
Proof.
  destruct (chunkFixed_windows (SampleText.doc SampleText.abcde) SampleText.abcde 3 1 6)
    as (chunks & Hc & Hm & _); [lia|reflexivity|reflexivity|simpl; lia|].
  rewrite Hc. simpl. rewrite Hm. reflexivity.
Defined.

(** C8 as stated speaks of the chunks and asks only [overlap < size].
    On "ab cd" with [size = 3], [overlap = 1] the windows "ab " and
    " cd" are trimmed to "ab" and "cd": the chunks share no code point
    and do not give the text back.  On "abcde" with [size = 2],
    [overlap = -1] the stride is 3 and "c" is in no chunk. *)
Lemma chunkFixed_trims_windows :
  contents_of (chunkFixed 6 (SampleText.doc SampleText.ab_cd) SampleText.ab_cd 3 1)
  = Some [[97; 98]; [99; 100]]
  /\ drop 1 [97; 98] <> take 1 [99; 100]
  /\ unoverlap 1 [[97; 98]; [99; 100]] <> SampleText.ab_cd
  /\ contents_of (chunkFixed 6 (SampleText.doc SampleText.abcde) SampleText.abcde 2 (-1))
     = Some [[97; 98]; [100; 101]].
Proof.
  split; [vm_compute; reflexivity|].
  split; [discriminate|].
  split; [discriminate|].
  vm_compute; reflexivity.
Qed.

(** C7.  [ChunkDocument] neither rejects nor clamps a policy with
    [ChunkSize <= ChunkOverlap].  Under the fixed method (every method
    but "recursive"), on a nonempty text longer than [ChunkSize]: with
    [ChunkSize = ChunkOverlap >= 0] the loop never ends, whatever the
    fuel; otherwise a slice expression is out of range and the call
    panics. *)
Theorem ChunkDocument_nonpositive_stride
    (chunkRecursive : Document -> list rune -> Z -> Z -> list Chunk)
    (cfg : ChunkingConfig) (doc : Document) :
  String.eqb (Method cfg) "recursive" = false ->
  - 2 ^ 63 <= ChunkSize cfg -> ChunkOverlap cfg < 2 ^ 63 ->
  ChunkSize cfg <= ChunkOverlap cfg ->
  0 < Z.of_nat (length (doc_Content doc)) ->
  ChunkSize cfg < Z.of_nat (length (doc_Content doc)) ->
  Z.of_nat (length (doc_Content doc)) < 2 ^ 63 ->
  (ChunkSize cfg = ChunkOverlap cfg -> 0 <= ChunkSize cfg ->
     forall fuel, ChunkDocument chunkRecursive fuel cfg doc = None)
  /\ (ChunkSize cfg < ChunkOverlap cfg \/ ChunkSize cfg < 0 ->
      forall fuel, (2 <= fuel)%nat ->
        ChunkDocument chunkRecursive fuel cfg doc = Some Panic).
Proof.
  intros Hm Hs Ho Hle Hne Hlt Hlen.
  split.
  - intros He Hp fuel. unfold ChunkDocument. rewrite Hm, <- He. unfold chunkFixed.
    rewrite chunkFixed_loop_zero_stride by lia.
    destruct (String.eqb (Method cfg) "fixed"); reflexivity.
  - intros Hneg fuel Hf. unfold ChunkDocument. rewrite Hm.
    rewrite chunkFixed_negative_stride by (try assumption; lia).
    destruct (String.eqb (Method cfg) "fixed"); reflexivity.
Qed.

Lemma ChunkDocument_nonpositive_stride_witness :
  (forall fuel,
     ChunkDocument (fun _ _ _ _ => []) fuel (SampleText.fixed 2 2)
       (SampleText.doc SampleText.abcde) = None)
  /\ ChunkDocument (fun _ _ _ _ => []) 2 (SampleText.fixed 2 3)
       (SampleText.doc SampleText.abcde) = Some Panic.
Proof.
  split.
  - apply (ChunkDocument_nonpositive_stride (fun _ _ _ _ => []) (SampleText.fixed 2 2)
             (SampleText.doc SampleText.abcde));
      try reflexivity; simpl; lia.
  - apply (ChunkDocument_nonpositive_stride (fun _ _ _ _ => []) (SampleText.fixed 2 3)
             (SampleText.doc SampleText.abcde));
      try reflexivity; simpl; lia.
Defined.

(** ** The indexer *)

Section IndexerProps.
Context {deps : Deps}.
Variable cfg : Config.


(** What a run of [reindex] leaves behind: either it failed and the two
    caches are as before, or it parsed, chunked and embedded the file and
    recorded the document. *)
Lemma reindex_inv (fuel : nat) (w : World) (idx : Indexer) (filePath : string)
    (r : outcome (list Chunk)) (idx' : Indexer) :
  reindex cfg fuel w idx filePath = Some (r, idx') ->
  (is_Ok r = false /\ docCache idx' = docCache idx /\ diskCache idx' = diskCache idx)
  \/ (exists doc chunks0 chunks,
        ParseDocument w filePath = Ok doc
        /\ ChunkDocument chunkRecursive fuel (Chunking cfg) doc = Some (Ok chunks0)
        /\ CreateEmbeddings cfg fuel chunks0 (n_embed idx) = Some (Ok chunks, n_embed idx')
        /\ r = Ok chunks
        /\ docCache idx' = <[filePath := doc]> (docCache idx)
        /\ diskCache idx' = snd (cacheDocument w (diskCache idx) doc chunks)).
Proof.
  unfold reindex. intros H.
  destruct (ParseDocument w filePath) as [doc|e|] eqn:Hp;
    [|injection H as <- <-; left; repeat split..].
  destruct (ChunkDocument chunkRecursive fuel (Chunking cfg) doc) as [[chunks0|e|]|] eqn:Hc;
    [|injection H as <- <-; left; repeat split..|discriminate].
  destruct (Nat.eqb (length chunks0) 0);
    [injection H as <- <-; left; repeat split|].
  cbn [n_embed count_chunk count_parse] in H.
  destruct (CreateEmbeddings cfg fuel chunks0 (n_embed idx)) as [[[chunks|e|] n]|] eqn:He;
    [|injection H as <- <-; left; repeat split..|discriminate].
  destruct (cacheDocument w _ doc chunks) as [o disk] eqn:Hd.
  injection H as <- <-. right. exists doc, chunks0, chunks.
  cbn [docCache diskCache n_embed set_embed count_chunk count_parse] in *.
  rewrite Hd. repeat split; assumption.
Qed.


End IndexerProps.



Section CacheProps.
Context {deps : Deps}.
Variable cfg : Config.

(** A parsed document carries the digest and the modification time of
    the file it was read from; its ID is the digest. *)
Lemma ParseDocument_Ok (w : World) (filePath : string) (doc : Document) :
  ParseDocument w filePath = Ok doc ->
  exists f, fs w !! filePath = Some f
    /\ doc_ID doc = FileHash_bytes (f_bytes f)
    /\ doc_Hash doc = FileHash_bytes (f_bytes f)
    /\ doc_FileModTime doc = f_mtime f
    /\ doc_FilePath doc = filePath.
Proof.
  unfold ParseDocument. intros H.
  destruct (if String.eqb (ToLower (Ext filePath)) ".pdf" then _ else _) as [extract|];
    [|discriminate].
  destruct (fs w !! filePath) as [f|]; [|discriminate].
  destruct (extract (f_bytes f)); try discriminate.
  injection H as <-. exists f. repeat split.
Qed.

(** After a successful write the cache holds the chunk set under the
    document's ID. *)
Lemma cacheDocument_writable (w : World) (disk : gmap string CacheFile)
    (doc : Document) (chunks : list Chunk) :
  mkdir_ok w = true -> (forall name, can_create w name = true) ->
  cacheDocument w disk doc chunks
  = (Ok tt, <[chunks_file (doc_ID doc) := ChunksGob chunks]>
              (<[doc_file (doc_ID doc) := DocGob doc]> disk)).
Proof.
  intros Hm Hc. unfold cacheDocument. rewrite Hm, !Hc. reflexivity.
Qed.

End CacheProps.




(** ** The update path *)

Section SearchFinds.

Lemma length_candidates visit q thr :
  (length (candidates visit q thr) <= length visit)%nat.
Proof.
  unfold candidates. induction visit as [|kv visit IH]; csimpl; [lia|].
  destruct (candidate q thr (snd kv)); csimpl; lia.
Qed.

(** With [topK] at least the number of chunks of the mirror, every
    qualifying chunk is among the results, in whatever order the mirror
    is visited. *)
Lemma Search_finds memory visit q topK thr k c :
  visits memory visit -> memory !! k = Some c -> qualifies q thr c ->
  Z.of_nat (size memory) <= topK ->
  exists results,
    Search visit q topK thr = Ok results /\ result_of q c ∈ results.
Proof.
  intros Hv Hk Hq Hsz.
  pose proof (Nat2Z.is_nonneg (size memory)) as Hpos.
  rewrite Search_nonneg by (etrans; eassumption). eexists. split; [reflexivity|].
  assert (Hlen : length visit = size memory).
  { unfold visits in Hv. rewrite Hv. apply length_map_to_list. }
  rewrite take_ge.
  - rewrite sort_Slice_Permutation. apply elem_of_candidates.
    exists k, c. split; [|split; [exact Hq|reflexivity]].
    apply (visits_lookup memory visit k c Hv). exact Hk.
  - rewrite sort_Slice_Permutation.
    pose proof (length_candidates visit q thr). lia.
Qed.

End SearchFinds.

(** C1.  The update path never deletes.  A file is indexed through the
    watcher, its content changes, and the watcher reindexes it: the new
    version has a new digest, so its chunks get new keys, and the chunks
    of the old version stay in the bucket and in the mirror.  Whatever
    the order in which the mirror is visited, a search then returns
    content of both versions of the file. *)
Theorem update_path_keeps_stale_chunks :
  SampleIndex.change (SampleIndex.world "abcde" 1 true) SampleIndex.start
  = Some (Ok tt, SampleIndex.after_first)
  /\ SampleIndex.change (SampleIndex.world "vwxyz" 2 true) SampleIndex.after_first
     = Some (Ok tt, SampleIndex.after_second)
  /\ memory (store SampleIndex.after_first) !! "h-abcde_0" = Some SampleIndex.stale
  /\ Content SampleIndex.stale = SampleIndex.runes_of "abc"
  /\ Metadata SampleIndex.stale !! "source" = Some (MStr SampleIndex.path)
  /\ Content SampleIndex.current = SampleIndex.runes_of "vwx"
  /\ Metadata SampleIndex.current !! "source" = Some (MStr SampleIndex.path)
  /\ db (store SampleIndex.after_second) !! "h-abcde_0" = Some SampleIndex.stale
  /\ forall visit, visits (memory (store SampleIndex.after_second)) visit ->
       exists results,
         Search visit Sample.e1 10 Sample.half = Ok results
         /\ result_of Sample.e1 SampleIndex.stale ∈ results
         /\ result_of Sample.e1 SampleIndex.current ∈ results.
Proof.
  split; [vm_compute; reflexivity|].
  split; [vm_compute; reflexivity|].
  split; [vm_compute; reflexivity|].
  split; [reflexivity|].
  split; [vm_compute; reflexivity|].
  split; [reflexivity|].
  split; [vm_compute; reflexivity|].
  split; [vm_compute; reflexivity|].
  intros visit Hv.
  assert (Ho : memory (store SampleIndex.after_second) !! "h-abcde_0"
               = Some SampleIndex.stale) by (vm_compute; reflexivity).
  assert (Hn : memory (store SampleIndex.after_second) !! "h-vwxyz_0"
               = Some SampleIndex.current) by (vm_compute; reflexivity).
  assert (Hsz : size (memory (store SampleIndex.after_second)) = 4%nat)
    by (vm_compute; reflexivity).
  assert (Hq : forall c, Embedding c = Sample.e1 -> qualifies Sample.e1 Sample.half c).
  { intros c Hc. unfold qualifies. rewrite Hc. split; [discriminate|].
    vm_compute. reflexivity. }
  destruct (Search_finds _ visit Sample.e1 10 Sample.half _ _ Hv Ho (Hq SampleIndex.stale eq_refl))
    as (results & Hs & Hin); [rewrite Hsz; lia|].
  destruct (Search_finds _ visit Sample.e1 10 Sample.half _ _ Hv Hn (Hq SampleIndex.current eq_refl))
    as (results' & Hs' & Hin'); [rewrite Hsz; lia|].
  rewrite Hs in Hs'. injection Hs' as <-.
  exists results. repeat split; assumption.
Qed.

(** ** Further properties of the store *)

Section StoreMore.
Context {blob : Type} {codec : Codec blob} {laws : CodecLaws codec}.

(** The loop of [AddChunks] touches only the keys of its chunks, and
    removes none. *)
Lemma AddChunks_loop_lookup (chunks : list Chunk) :
  forall (bucket : gmap string blob) (mem : gmap string Chunk) err bucket' mem',
    AddChunks_loop chunks bucket mem = (err, bucket', mem') ->
    forall k,
      (is_Some (mem !! k) -> is_Some (mem' !! k))
      /\ (is_Some (bucket !! k) -> is_Some (bucket' !! k))
      /\ ((forall c, c ∈ chunks -> key_of c <> k) ->
          mem' !! k = mem !! k /\ bucket' !! k = bucket !! k).
Proof.
  induction chunks as [|chunk rest IH]; intros bucket mem err bucket' mem' H k.
  - simpl in H. injection H as <- <- <-. repeat split; auto.
  - simpl in H. fold (key_of chunk) in H.
    set (chunk' := if String.eqb (ID chunk) "" then set_ID chunk (chunk_key chunk) else chunk)
      in H.
    assert (Hid : ID chunk' = key_of chunk).
    { unfold chunk', key_of. destruct (String.eqb (ID chunk) ""); reflexivity. }
    destruct (gob_encode chunk') as [buf|];
      [|injection H as <- <- <-; repeat split; auto].
    destruct (bucket_Put bucket (ID chunk') buf) as [b1|e|] eqn:Hp;
      [|injection H as <- <- <-; repeat split; auto..].
    apply bucket_Put_Ok in Hp. subst b1.
    destruct (IH _ _ _ _ _ H k) as (Hm & Hb & Hne).
    split; [|split].
    + intros Hs. apply Hm. destruct (decide (ID chunk' = k)) as [<-|Hk].
      * rewrite lookup_insert_eq. eauto.
      * rewrite lookup_insert_ne by exact Hk. exact Hs.
    + intros Hs. apply Hb. destruct (decide (ID chunk' = k)) as [<-|Hk].
      * rewrite lookup_insert_eq. eauto.
      * rewrite lookup_insert_ne by exact Hk. exact Hs.
    + intros Hall.
      assert (Hk : ID chunk' <> k).
      { rewrite Hid. apply Hall. apply elem_of_cons. left. reflexivity. }
      destruct Hne as [H1 H2].
      { intros c Hc. apply Hall. apply elem_of_cons. right. exact Hc. }
      rewrite H1, H2, !lookup_insert_ne by exact Hk. split; reflexivity.
Qed.

(** [AddChunks] only adds: whatever it returns, a key of the bucket or
    of the mirror is still there afterwards, and a key that is not the
    key of one of the chunks keeps its value. *)
Theorem AddChunks_only_adds (commit : bool) (vs : @VectorStore blob)
    (chunks : list Chunk) (k : string) :
  let vs' := snd (AddChunks commit vs chunks) in
  (is_Some (memory vs !! k) -> is_Some (memory vs' !! k))
  /\ (is_Some (db vs !! k) -> is_Some (db vs' !! k))
  /\ ((forall c, c ∈ chunks -> key_of c <> k) ->
      memory vs' !! k = memory vs !! k /\ db vs' !! k = db vs !! k).
Proof.
  unfold AddChunks.
  destruct (AddChunks_loop chunks (db vs) (memory vs)) as [[err b'] m'] eqn:Hl.
  destruct (AddChunks_loop_lookup chunks _ _ _ _ _ Hl k) as (Hm & Hb & Hne).
  assert (Hkeep : (is_Some (memory vs !! k) -> is_Some (m' !! k))
          /\ (is_Some (db vs !! k) -> is_Some (db vs !! k))
          /\ ((forall c, c ∈ chunks -> key_of c <> k) ->
              m' !! k = memory vs !! k /\ db vs !! k = db vs !! k)).
  { split; [exact Hm|]. split; [auto|]. intros Hall. split; [apply Hne, Hall|reflexivity]. }
  destruct err as [e|]; [exact Hkeep|]. destruct commit; [|exact Hkeep].
  cbn [snd memory db]. split; [exact Hm|]. split; [exact Hb|exact Hne].
Qed.



(** On a store whose mirror agrees with the bucket,
    [DeleteByDocumentID] removes the chunks of the document, and only
    them. *)
Theorem DeleteByDocumentID_removes (vs vs' : @VectorStore blob) (documentID : string) :
  consistent vs -> DeleteByDocumentID true vs documentID = (Ok tt, vs') ->
  forall k c,
    memory vs' !! k = Some c
    <-> memory vs !! k = Some c /\ DocumentID c <> documentID.
Proof.
  unfold DeleteByDocumentID. intros Hc [= <-] k c. cbn [memory].
  specialize (Hc k).
  assert (Hdel : forall c0, memory vs !! k = Some c0 ->
            (toDelete (db vs) documentID !! k = None <-> DocumentID c0 <> documentID)).
  { intros c0 Hm. rewrite Hm in Hc. destruct (db vs !! k) as [v|] eqn:Hd; [|contradiction].
    unfold toDelete. rewrite map_lookup_filter_None. split.
    - intros [Hn|Hn]; [congruence|]. specialize (Hn v Hd). simpl in Hn.
      unfold matches in Hn. rewrite Hc in Hn. intros He. apply Hn.
      apply String.eqb_eq. exact He.
    - intros Hne. right. intros v' Hv'. rewrite Hd in Hv'. injection Hv' as <-.
      simpl. unfold matches. rewrite Hc. intros He. apply String.eqb_eq in He.
      contradiction. }
  rewrite map_lookup_filter_Some. simpl. split.
  - intros [Hm Hn]. split; [exact Hm|]. apply (Hdel c Hm). exact Hn.
  - intros [Hm Hn]. split; [exact Hm|]. apply (Hdel c Hm). exact Hn.
Qed.

(** What [Search] returns was built from a chunk of the map it
    visited. *)
Lemma Search_Ok_elem visit q topK thr results r :
  Search visit q topK thr = Ok results -> r ∈ results ->
  exists k c, ((k, c) ∈ visit) /\ qualifies q thr c /\ r = result_of q c.
Proof.
  unfold Search. intros H Hin.
  assert (Hs : r ∈ sort_Slice (candidates visit q thr)).
  { destruct (_ >? topK).
    - destruct (topK <? 0); [discriminate|]. injection H as <-.
      apply elem_of_take in Hin. destruct Hin as (i & Hi & _).
      eapply list_elem_of_lookup_2. exact Hi.
    - injection H as <-. exact Hin. }
  rewrite sort_Slice_Permutation in Hs. apply elem_of_candidates. exact Hs.
Qed.

(** After a successful [DeleteByDocumentID] on such a store no search
    returns a chunk of the document. *)
Theorem DeleteByDocumentID_then_Search (vs vs' : @VectorStore blob)
    (documentID : string) (visit : list (string * Chunk))
    (q : list Float.f32) (topK : Z) (thr : Float.f64)
    (results : list RetrievalResult) (r : RetrievalResult) :
  consistent vs -> DeleteByDocumentID true vs documentID = (Ok tt, vs') ->
  visits (memory vs') visit ->
  Search visit q topK thr = Ok results -> r ∈ results ->
  r_DocumentID r <> documentID /\ DocumentID (r_Chunk r) <> documentID.
Proof.
  intros Hc Hd Hv Hs Hin.
  destruct (Search_Ok_elem _ _ _ _ _ _ Hs Hin) as (k & c & Hkc & _ & ->).
  apply (visits_lookup _ _ k c Hv) in Hkc.
  unfold DeleteByDocumentID in Hd. injection Hd as <-. cbn [memory] in Hkc.
  apply map_lookup_filter_Some in Hkc. destruct Hkc as [Hm Hn]. simpl in Hn.
  assert (Hne : DocumentID c <> documentID).
  { specialize (Hc k). rewrite Hm in Hc.
    destruct (db vs !! k) as [v|] eqn:Hdb; [|contradiction].
    intros He. unfold toDelete in Hn. rewrite map_lookup_filter_None in Hn.
    destruct Hn as [Hn|Hn]; [congruence|]. apply (Hn v Hdb). simpl.
    unfold matches. rewrite Hc. apply String.eqb_eq. exact He. }
  split; exact Hne.
Qed.

(** Reopening the database of a store whose mirror agrees with the
    bucket rebuilds the same store. *)
Lemma NewVectorStore_reopen (vs : @VectorStore blob) :
  consistent vs -> NewVectorStore (db vs) = Ok vs.
Proof.
  intros Hc. unfold NewVectorStore, loadIntoMemory.
  destruct (decide _) as [Hall|Hnot].
  - f_equal. destruct vs as [b m]. cbn [db memory] in *. f_equal.
    apply map_eq. intros k. rewrite lookup_omap. specialize (Hc k). cbn [db memory] in Hc.
    destruct (m !! k) as [c|], (b !! k) as [v|]; simpl; try contradiction; auto.
  - exfalso. apply Hnot. intros k v Hk. specialize (Hc k). rewrite Hk in Hc.
    destruct (memory vs !! k) as [c|]; [rewrite Hc; eauto|contradiction].
Qed.

(** What a successful [AddChunks] wrote survives a restart: loading
    the bucket again gives the store the call left. *)
Theorem AddChunks_then_reopen (vs vs' : @VectorStore blob) (chunks : list Chunk) :
  consistent vs -> AddChunks true vs chunks = (Ok tt, vs') ->
  NewVectorStore (db vs') = Ok vs'.
Proof.
  intros Hc H. apply NewVectorStore_reopen.
  unfold AddChunks in H.
  destruct (AddChunks_loop chunks (db vs) (memory vs)) as [[err b'] m'] eqn:Hl.
  destruct err as [e|]; [discriminate|]. injection H as <-.
  apply consistent_agree. cbn [db memory].
  eapply AddChunks_loop_agree; [exact Hc|exact Hl].
Qed.

(** [GetStats] counts the chunks of the mirror; there are no more
    documents than chunks; on a store whose mirror agrees with the bucket
    the chunk count is that of the bucket. *)
Theorem GetStats_counts (vs : @VectorStore blob) :
  snd (GetStats vs) = size (memory vs)
  /\ (fst (GetStats vs) <= snd (GetStats vs))%nat
  /\ (consistent vs -> snd (GetStats vs) = size (db vs)).
Proof.
  unfold GetStats. cbn [fst snd]. split; [reflexivity|]. split.
  - rewrite <- length_map_to_list.
    generalize (map_to_list (memory vs)). intros l.
    induction l as [|kv l IH].
    { change (size (∅ : gset string) <= 0)%nat. rewrite size_empty. lia. }
    rewrite !fmap_cons, list_to_set_cons. cbn [length].
    rewrite size_union_alt, size_singleton.
    pose proof (subseteq_size
      (list_to_set (DocumentID <$> (snd <$> l)) ∖ {[DocumentID kv.2]})
      (list_to_set (DocumentID <$> (snd <$> l)) : gset string)) as Hsub.
    assert (Hs : (list_to_set (DocumentID <$> (snd <$> l)) ∖ {[DocumentID kv.2]} : gset string)
                 ⊆ list_to_set (DocumentID <$> (snd <$> l)))
      by (apply subseteq_difference_l; reflexivity).
    apply Hsub in Hs. lia.
  - intros Hc. rewrite <- !size_dom. f_equal. apply set_eq. intros k.
    rewrite !elem_of_dom. specialize (Hc k).
    destruct (memory vs !! k) as [c|], (db vs !! k) as [v|]; try contradiction;
      split; intros [x Hx]; try discriminate; eauto.
Qed.

End StoreMore.

(** With the codec that stores chunks as they are, a bucket mirrored by
    itself is in agreement. *)
Lemma plain_consistent (m : gmap string Chunk) :
  consistent (codec := plain_codec) (mkStore m m).
Proof.
  intros k. cbn [memory db]. destruct (m !! k); reflexivity.
Qed.

Lemma AddChunks_Ok_consistent_witness :
  SampleStore.consistent SampleStore3.after_add.
Proof.
  apply (AddChunks_Ok_consistent (codec := plain_codec) true SampleStore.empty_store
           [Sample.ca; Sample.cb] SampleStore3.after_add (plain_consistent ∅)).
  vm_compute. reflexivity.
Defined.

Lemma DeleteByDocumentID_Ok_consistent_witness :
  SampleStore.consistent SampleStore3.after_delete.
Proof.
  apply (DeleteByDocumentID_Ok_consistent (codec := plain_codec) true SampleStore3.store3 "a"
           SampleStore3.after_delete (plain_consistent Sample.memory3)).
  reflexivity.
Defined.

Lemma NewVectorStore_consistent_witness :
  SampleStore.consistent SampleStore3.store3.
Proof.
  apply (NewVectorStore_consistent (codec := plain_codec) Sample.memory3).
  vm_compute. reflexivity.
Defined.


Lemma DeleteByDocumentID_removes_witness :
  memory SampleStore3.after_delete !! "b_0" = Some Sample.cb
  /\ memory SampleStore3.after_delete !! "a_0" <> Some Sample.ca.
Proof.
  pose proof (DeleteByDocumentID_removes (codec := plain_codec) SampleStore3.store3
                SampleStore3.after_delete "a" (plain_consistent Sample.memory3) eq_refl)
    as H.
  split.
  - apply H. split; [vm_compute; reflexivity|]. vm_compute. discriminate.
  - intros Ha. apply H in Ha. destruct Ha as [_ Hne]. apply Hne. reflexivity.
Defined.

Lemma DeleteByDocumentID_then_Search_witness :
  Search (map_to_list (memory SampleStore3.after_delete)) Sample.e1 1 Sample.half
  = Ok [result_of Sample.e1 Sample.cb]
  /\ r_DocumentID (result_of Sample.e1 Sample.cb) <> "a"
  /\ DocumentID (r_Chunk (result_of Sample.e1 Sample.cb)) <> "a".
Proof.
  assert (Hs : Search (map_to_list (memory SampleStore3.after_delete)) Sample.e1 1 Sample.half
               = Ok [result_of Sample.e1 Sample.cb]) by (vm_compute; reflexivity).
  split; [exact Hs|].
  apply (DeleteByDocumentID_then_Search (codec := plain_codec) SampleStore3.store3
           SampleStore3.after_delete "a"
           (map_to_list (memory SampleStore3.after_delete))
           Sample.e1 1 Sample.half [result_of Sample.e1 Sample.cb]
           (result_of Sample.e1 Sample.cb)
           (plain_consistent Sample.memory3) eq_refl).
  - unfold visits. reflexivity.
  - exact Hs.
  - apply elem_of_cons. left. reflexivity.
Defined.

Lemma AddChunks_then_reopen_witness :
  SampleStore.NewVectorStore (db SampleStore3.after_add) = Ok SampleStore3.after_add.
Proof.
  apply (AddChunks_then_reopen (codec := plain_codec) SampleStore.empty_store
           SampleStore3.after_add [Sample.ca; Sample.cb] (plain_consistent ∅)).
  vm_compute. reflexivity.
Defined.

(** ** Symmetry of the cosine *)

Section CosineSymmetry.

Lemma SFmul_comm (prec emax : Z) (x y : spec_float) :
  SFmul prec emax x y = SFmul prec emax y x.
Proof.
  destruct x as [sx|sx| |sx mx ex], y as [sy|sy| |sy my ey]; simpl;
    try reflexivity; try (rewrite (xorb_comm sx sy); reflexivity).
  rewrite (xorb_comm sx sy), (Pos.mul_comm mx my), (Z.add_comm ex ey). reflexivity.
Qed.

(** Swapping the two vectors swaps the two norms and keeps the dot
    product. *)
Lemma cos_sums_swap (l : list (Float.f32 * Float.f32)) (dot na nb : Float.f64) :
  fold_left (cos_step (A := float_arith)) (map (fun xy => (snd xy, fst xy)) l) (dot, nb, na)
  = let '(d, a, b) := fold_left (cos_step (A := float_arith)) l (dot, na, nb) in (d, b, a).
Proof.
  revert dot na nb. induction l as [|[x y] l IH]; intros dot na nb; [reflexivity|].
  cbn [map fold_left fst snd cos_step].
  change (a_mul32 y x) with (SFmul Float.prec32 Float.emax32 y x).
  rewrite (SFmul_comm _ _ y x). apply IH.
Qed.

Lemma combine_swap {A B} (a : list A) (b : list B) :
  combine b a = map (fun xy => (snd xy, fst xy)) (combine a b).
Proof.
  revert b. induction a as [|x a IH]; intros [|y b]; simpl; try reflexivity.
  rewrite IH. reflexivity.
Qed.

End CosineSymmetry.

(** In the arithmetic of the code, rounding included, the similarity of
    two vectors does not depend on their order. *)
Theorem cosineSimilarity_sym (a b : list Float.f32) :
  cosineSimilarityF a b = cosineSimilarityF b a.
Proof.
  unfold cosineSimilarityF, cosineSimilarity.
  rewrite (Nat.eqb_sym (length b) (length a)).
  destruct (negb (Nat.eqb (length a) (length b))); [reflexivity|].
  unfold cos_sums. rewrite (combine_swap a b), cos_sums_swap.
  destruct (fold_left cos_step (combine a b) (a_zero, a_zero, a_zero)) as [[d na] nb].
  rewrite (orb_comm (a_eqb nb a_zero)).
  destruct (a_eqb na a_zero || a_eqb nb a_zero); [reflexivity|].
  change (a_mul (a_sqrt nb) (a_sqrt na))
    with (SFmul Float.prec64 Float.emax64 (a_sqrt nb) (a_sqrt na)).
  rewrite (SFmul_comm _ _ (a_sqrt nb) (a_sqrt na)). reflexivity.
Qed.


(** ** Further properties of the chunker *)

Section TrimSpaceProps.

(** [trimLeft] removes a prefix of white space. *)
Lemma trimLeft_split (s : list rune) :
  exists p, s = p ++ trimLeft s /\ Forall (fun r => isSpace r = true) p.
Proof.
  induction s as [|r s IH]; [exists []; split; [reflexivity|constructor]|].
  simpl. destruct (isSpace r) eqn:Hr.
  - destruct IH as (p & Hp & Hall). exists (r :: p). split; [simpl; congruence|].
    constructor; assumption.
  - exists []. split; [reflexivity|constructor].
Qed.

(** What is left does not start with white space. *)
Lemma trimLeft_head (s : list rune) :
  match trimLeft s with
  | [] => True
  | r :: _ => isSpace r = false
  end.
Proof.
  induction s as [|r s IH]; simpl; [exact I|].
  destruct (isSpace r) eqn:Hr; [exact IH|exact Hr].
Qed.

Lemma trimLeft_fix (s : list rune) :
  match s with [] => True | r :: _ => isSpace r = false end -> trimLeft s = s.
Proof.
  destruct s as [|r s]; simpl; [reflexivity|]. intros ->. reflexivity.
Qed.

Lemma trimLeft_idemp (s : list rune) : trimLeft (trimLeft s) = trimLeft s.
Proof. apply trimLeft_fix, trimLeft_head. Qed.

(** [TrimSpace] removes white space at both ends, and nothing else. *)
Lemma TrimSpace_split (s : list rune) :
  exists p q, s = p ++ TrimSpace s ++ q
    /\ Forall (fun r => isSpace r = true) p /\ Forall (fun r => isSpace r = true) q.
Proof.
  unfold TrimSpace.
  destruct (trimLeft_split s) as (p & Hp & Hall).
  destruct (trimLeft_split (rev (trimLeft s))) as (q & Hq & Hallq).
  exists p, (rev q). split; [|split; [exact Hall|apply Forall_rev; exact Hallq]].
  rewrite <- rev_app_distr, <- Hq, rev_involutive. exact Hp.
Qed.

Lemma nonspace_spaces (p : list rune) :
  Forall (fun r => isSpace r = true) p -> nonspace p = [].
Proof.
  induction 1 as [|r p Hr _ IH]; [reflexivity|].
  unfold nonspace in *. simpl. rewrite Hr. exact IH.
Qed.

Lemma nonspace_app (s t : list rune) : nonspace (s ++ t) = nonspace s ++ nonspace t.
Proof. unfold nonspace. apply List.filter_app. Qed.

(** Trimming keeps every code point that is not white space. *)
Lemma nonspace_TrimSpace (s : list rune) : nonspace (TrimSpace s) = nonspace s.
Proof.
  destruct (TrimSpace_split s) as (p & q & Hs & Hp & Hq).
  rewrite Hs at 2. rewrite !nonspace_app, (nonspace_spaces p Hp), (nonspace_spaces q Hq).
  rewrite app_nil_r. reflexivity.
Qed.

(** A prefix of a string that does not start with white space does not
    either. *)
Lemma head_prefix (s t : list rune) :
  match s ++ t with [] => True | r :: _ => isSpace r = false end ->
  match s with [] => True | r :: _ => isSpace r = false end.
Proof. destruct s; simpl; auto. Qed.

(** Trimming twice is trimming once. *)
Lemma TrimSpace_idemp (s : list rune) : TrimSpace (TrimSpace s) = TrimSpace s.
Proof.
  unfold TrimSpace.
  set (t := trimLeft s). set (u := trimLeft (rev t)).
  assert (Hu : trimLeft (rev u) = rev u).
  { apply trimLeft_fix.
    destruct (trimLeft_split (rev t)) as (p & Hp & _). fold u in Hp.
    apply (f_equal (@rev rune)) in Hp. rewrite rev_involutive, rev_app_distr in Hp.
    apply (head_prefix (rev u) (rev p)). rewrite <- Hp. apply trimLeft_head. }
  rewrite Hu, rev_involutive. unfold u. rewrite trimLeft_idemp. reflexivity.
Qed.

End TrimSpaceProps.

Section ChunkFixedMore.

Lemma new_chunk_fresh (doc : Document) (content : list rune) (k : nat) :
  fresh_chunk doc k (new_chunk doc content (Z.of_nat k)).
Proof.
  unfold fresh_chunk, new_chunk. cbn. repeat split. apply TrimSpace_idemp.
Qed.

(** Whatever the policy, the chunk the loop appends at position [k] is
    numbered [k]. *)
Lemma chunkFixed_loop_fresh (doc : Document) (runes : list rune) (size overlap : Z)
    (fuel : nat) :
  forall i chunks out,
    chunkFixed_loop fuel doc runes size overlap i chunks = Some (Ok out) ->
    (forall k c, chunks !! k = Some c -> fresh_chunk doc k c) ->
    forall k c, out !! k = Some c -> fresh_chunk doc k c.
Proof.
  induction fuel as [|f IH]; intros i chunks out H Hin; [discriminate|].
  cbn [chunkFixed_loop] in H. cbv zeta in H.
  destruct (i <? Z.of_nat (length runes)); [|injection H as <-; exact Hin].
  destruct (slice runes i _) as [content|]; [|discriminate].
  assert (Hin' : forall k c,
            (chunks ++ [new_chunk doc content (Z.of_nat (length chunks))]) !! k = Some c ->
            fresh_chunk doc k c).
  { intros k c Hk. apply lookup_app_Some in Hk. destruct Hk as [Hk|[Hge Hk]].
    - apply Hin, Hk.
    - apply list_lookup_singleton_Some in Hk. destruct Hk as [Hz <-].
      replace k with (length chunks) by lia. apply new_chunk_fresh. }
  destruct (_ >=? Z.of_nat (length runes)); [injection H as <-; exact Hin'|].
  eapply IH; [exact H|exact Hin'].
Qed.

End ChunkFixedMore.

(** Whatever the policy, when [chunkFixed] returns, its chunks are
    numbered from 0 in order, carry the document's ID and the metadata of
    their position, have no ID and no embedding yet, and their content
    has no white space at either end. *)
Theorem chunkFixed_fresh (fuel : nat) (doc : Document) (text : list rune)
    (size overlap : Z) (chunks : list Chunk) (k : nat) (c : Chunk) :
  chunkFixed fuel doc text size overlap = Some (Ok chunks) ->
  chunks !! k = Some c ->
  fresh_chunk doc k c.
Proof.
  unfold chunkFixed. intros H. eapply chunkFixed_loop_fresh; [exact H|].
  intros k' c' Hk. rewrite lookup_nil in Hk. discriminate.
Qed.

Lemma chunkFixed_fresh_witness :
  fresh_chunk (SampleText.doc SampleText.abcde) 1
    (new_chunk (SampleText.doc SampleText.abcde) [99; 100; 101] 1).
Proof.
  apply (chunkFixed_fresh 6 (SampleText.doc SampleText.abcde) SampleText.abcde 3 1
           (chunks_from (SampleText.doc SampleText.abcde) 0 [[97; 98; 99]; [99; 100; 101]])).
  - vm_compute. reflexivity.
  - reflexivity.
Defined.

(** Under the fixed method, every chunk [ChunkDocument] returns has at
    least [MinChunkSize] bytes of content, and keeps the number it had
    before the smaller chunks were dropped. *)
Theorem ChunkDocument_fixed_min_size
    (chunkRecursive : Document -> list rune -> Z -> Z -> list Chunk)
    (fuel : nat) (cfg : ChunkingConfig) (doc : Document) (chunks : list Chunk) (c : Chunk) :
  String.eqb (Method cfg) "recursive" = false ->
  ChunkDocument chunkRecursive fuel cfg doc = Some (Ok chunks) ->
  c ∈ chunks ->
  MinChunkSize cfg <= byte_len (Content c)
  /\ exists all k,
       chunkFixed fuel doc (doc_Content doc) (ChunkSize cfg) (ChunkOverlap cfg) = Some (Ok all)
       /\ all !! k = Some c /\ Index c = Z.of_nat k.
Proof.
  intros Hm H Hc. unfold ChunkDocument in H. rewrite Hm in H.
  assert (Hf : exists all,
            chunkFixed fuel doc (doc_Content doc) (ChunkSize cfg) (ChunkOverlap cfg)
            = Some (Ok all)
            /\ chunks = filter (fun c => MinChunkSize cfg <= byte_len (TrimSpace (Content c))) all).
  { destruct (String.eqb (Method cfg) "fixed");
      destruct (chunkFixed fuel doc (doc_Content doc) (ChunkSize cfg) (ChunkOverlap cfg))
        as [[all|e|]|]; try discriminate;
      injection H as <-; exists all; split; reflexivity. }
  destruct Hf as (all & Hall & ->).
  apply list_elem_of_filter in Hc. destruct Hc as [Hmin Hin].
  apply list_elem_of_lookup_1 in Hin. destruct Hin as [k Hk].
  assert (Hnil : forall k' c', ([] : list Chunk) !! k' = Some c' -> fresh_chunk doc k' c').
  { intros k' c' Hk'. rewrite lookup_nil in Hk'. discriminate. }
  destruct (chunkFixed_loop_fresh doc (doc_Content doc) (ChunkSize cfg) (ChunkOverlap cfg)
              fuel 0 [] all Hall Hnil k c Hk) as (Hi & _ & _ & _ & _ & Ht).
  split; [rewrite <- Ht; exact Hmin|].
  exists all, k. repeat split; assumption.
Qed.

Lemma ChunkDocument_fixed_min_size_witness :
  contents_of (ChunkDocument (fun _ _ _ _ => []) 9 SampleGap.cfg SampleGap.doc)
  = Some [[97; 98; 99]; [100; 101]]
  /\ 1 <= byte_len [100; 101]
  /\ exists all,
       chunkFixed 9 SampleGap.doc SampleGap.text 3 0 = Some (Ok all)
       /\ all !! 2%nat = Some (new_chunk SampleGap.doc [100; 101] 2).
Proof.
  split; [vm_compute; reflexivity|].
  destruct (ChunkDocument_fixed_min_size (fun _ _ _ _ => []) 9 SampleGap.cfg SampleGap.doc
              [new_chunk SampleGap.doc [97; 98; 99] 0; new_chunk SampleGap.doc [100; 101] 2]
              (new_chunk SampleGap.doc [100; 101] 2))
    as (Hmin & all & k & Hall & Hk & Hi).
  - reflexivity.
  - vm_compute. reflexivity.
  - apply elem_of_cons. right. apply elem_of_cons. left. reflexivity.
  - split; [exact Hmin|]. exists all. split; [exact Hall|].
    assert (k = 2%nat) as <- by (cbn in Hi; lia). exact Hk.
Defined.

(** A text that fits the window gives one chunk, whatever the overlap;
    an empty text gives none. *)
Theorem chunkFixed_short_text (fuel : nat) (doc : Document) (text : list rune)
    (size overlap : Z) :
  (0 < fuel)%nat -> Z.of_nat (length text) <= size -> size < 2 ^ 63 ->
  chunkFixed fuel doc text size overlap
  = Some (Ok match text with [] => [] | _ => [new_chunk doc text 0] end).
Proof.
  intros Hf Hlen Hs. destruct fuel as [|f]; [lia|].
  unfold chunkFixed. cbn [chunkFixed_loop]. cbv zeta.
  destruct (decide (text = [])) as [->|Hne]; [reflexivity|].
  assert (Hpos : 0 < Z.of_nat (length text)).
  { destruct text; [congruence|cbn [length]; lia]. }
  assert (Hout : match text with [] => [] | _ => [new_chunk doc text 0] end
                 = [new_chunk doc text 0]) by (destruct text; [congruence|reflexivity]).
  rewrite Hout.
  assert ((0 <? Z.of_nat (length text)) = true) as -> by lia.
  rewrite Z.add_0_l, wrap64_id by lia.
  assert (Hsl : slice text 0 (Z.of_nat (length text)) = Some text).
  { rewrite slice_Some by lia. rewrite Z.sub_0_r, Nat2Z.id.
    change (Z.to_nat 0) with 0%nat. rewrite drop_0, take_ge by lia. reflexivity. }
  destruct (size >? Z.of_nat (length text)) eqn:Hgt.
  - rewrite Hsl. assert ((Z.of_nat (length text) >=? Z.of_nat (length text)) = true) as ->
      by lia. reflexivity.
  - assert (size = Z.of_nat (length text)) as -> by lia.
    rewrite Hsl. assert ((Z.of_nat (length text) >=? Z.of_nat (length text)) = true) as ->
      by lia. reflexivity.
Qed.

Lemma chunkFixed_short_text_witness :
  chunkFixed 1 (SampleText.doc SampleText.abcde) SampleText.abcde 5 7
  = Some (Ok [new_chunk (SampleText.doc SampleText.abcde) SampleText.abcde 0]).
Proof.
  apply (chunkFixed_short_text 1 (SampleText.doc SampleText.abcde) SampleText.abcde 5 7);
    [lia|simpl; lia|reflexivity].
Defined.

Section SentenceProps.

Lemma splitSentences_loop_nonspace (runes : list rune) :
  forall current sentences,
    nonspace (concat (splitSentences_loop runes current sentences))
    = nonspace (concat sentences) ++ nonspace current ++ nonspace runes.
Proof.
  induction runes as [|r rest IH]; intros current sentences.
  - simpl. destruct current as [|c current']; simpl negb; cbv iota.
    + rewrite !app_nil_r. reflexivity.
    + rewrite concat_app, nonspace_app. simpl concat. rewrite app_nil_r, app_nil_r.
      rewrite nonspace_TrimSpace. reflexivity.
  - cbn [splitSentences_loop].
    destruct (isTerminator r && _).
    + rewrite IH, concat_app, nonspace_app. simpl concat.
      rewrite app_nil_r, nonspace_TrimSpace, nonspace_app.
      change (r :: rest) with ([r] ++ rest). rewrite nonspace_app, <- !app_assoc.
      reflexivity.
    + rewrite IH, nonspace_app.
      change (r :: rest) with ([r] ++ rest). rewrite nonspace_app, <- !app_assoc.
      reflexivity.
Qed.

Lemma splitSentences_loop_trimmed (runes : list rune) :
  forall current sentences,
    Forall (fun s => TrimSpace s = s) sentences ->
    Forall (fun s => TrimSpace s = s) (splitSentences_loop runes current sentences).
Proof.
  assert (Hadd : forall sentences current,
            Forall (fun s => TrimSpace s = s) sentences ->
            Forall (fun s => TrimSpace s = s) (sentences ++ [TrimSpace current])).
  { intros sentences current H. apply Forall_app. split; [exact H|].
    constructor; [apply TrimSpace_idemp|constructor]. }
  induction runes as [|r rest IH]; intros current sentences H.
  - simpl. destruct (negb _); [apply Hadd, H|exact H].
  - cbn [splitSentences_loop]. destruct (isTerminator r && _).
    + apply IH, Hadd, H.
    + apply IH, H.
Qed.

Lemma splitSentences_loop_no_space (runes : list rune) :
  forall current sentences,
    Forall (fun r => isSpace r = false) runes ->
    splitSentences_loop runes current sentences
    = if negb (Nat.eqb (length (current ++ runes)) 0)
      then sentences ++ [TrimSpace (current ++ runes)]
      else sentences.
Proof.
  induction runes as [|r rest IH]; intros current sentences H.
  - simpl. rewrite app_nil_r. reflexivity.
  - cbn [splitSentences_loop].
    assert (Hn : match rest with r' :: _ => isSpace r' | [] => false end = false).
    { destruct rest as [|r' rest']; [reflexivity|].
      apply Forall_cons in H. destruct H as [_ H].
      apply Forall_cons in H. apply H. }
    rewrite Hn, andb_false_r.
    apply Forall_cons in H. destruct H as [_ H].
    rewrite IH by exact H. rewrite <- app_assoc. reflexivity.
Qed.

End SentenceProps.

(** [splitSentences] loses no code point but white space; every
    sentence it returns has no white space at either end; and a nonempty
    text without white space is one sentence. *)
Theorem splitSentences_keeps_text (text : list rune) :
  nonspace (concat (splitSentences text)) = nonspace text
  /\ Forall (fun s => TrimSpace s = s) (splitSentences text)
  /\ (Forall (fun r => isSpace r = false) text -> text <> [] ->
      splitSentences text = [text]).
Proof.
  unfold splitSentences. split; [|split].
  - rewrite splitSentences_loop_nonspace. reflexivity.
  - apply splitSentences_loop_trimmed. constructor.
  - intros Hns Hne. rewrite splitSentences_loop_no_space by exact Hns.
    simpl app. destruct text as [|r text']; [congruence|].
    simpl. rewrite TrimSpace_id by exact Hns. reflexivity.
Qed.


(** ** The embedder *)

Section EmbedderProps.
Context {deps : Deps}.
Variable cfg : Config.

(** [assign] writes the embeddings of a batch to the chunks from
    position [k] on, and to no other. *)
Lemma assign_batch (embs : list (list Float.f32)) :
  forall (k : nat) (cur : list Chunk),
    (k + length embs <= length cur)%nat ->
    exists out,
      assign cur (Z.of_nat k) embs = Some out
      /\ length out = length cur
      /\ forall j,
           out !! j
           = if decide (k <= j < k + length embs)%nat
             then c ← cur !! j; emb ← embs !! (j - k)%nat; Some (set_Embedding c emb)
             else cur !! j.
Proof.
  induction embs as [|emb rest IH]; intros k cur Hlen.
  - exists cur. split; [reflexivity|]. split; [reflexivity|].
    intros j. destruct (decide _) as [Hj|Hj]; [simpl in Hj; lia|reflexivity].
  - cbn [length] in Hlen. cbn [assign].
    assert (((0 <=? Z.of_nat k) && (Z.of_nat k <? Z.of_nat (length cur))) = true) as ->
      by lia.
    rewrite Nat2Z.id.
    replace (Z.of_nat k + 1) with (Z.of_nat (S k)) by lia.
    destruct (IH (S k) (alter (fun c => set_Embedding c emb) k cur)) as (out & Ho & Hl & Hj).
    { rewrite length_alter. lia. }
    exists out. split; [exact Ho|]. split; [rewrite Hl; apply length_alter|].
    intros j. rewrite Hj. cbn [length].
    destruct (decide (S k <= j < S k + length rest)%nat) as [Hin|Hout].
    + rewrite list_lookup_alter_ne by lia.
      destruct (decide (k <= j < k + S (length rest))%nat) as [_|Hn]; [|lia].
      replace (j - k)%nat with (S (j - S k)) by lia. reflexivity.
    + destruct (decide (j = k)) as [->|Hne].
      * rewrite list_lookup_alter. destruct (decide (k = k)) as [_|Hn]; [|congruence].
        destruct (decide (k <= k < k + S (length rest))%nat) as [_|Hn]; [|lia].
        rewrite Nat.sub_diag. destruct (cur !! k); reflexivity.
      * rewrite list_lookup_alter_ne by congruence.
        destruct (decide (k <= j < k + S (length rest))%nat) as [Hn|_]; [lia|reflexivity].
Qed.

Variable f : list rune -> list Float.f32.
Hypothesis provider : forall n batch, getEmbeddings n batch = Ok (map f batch).
Hypothesis batch_size : 0 < BatchSize cfg < 2 ^ 63.

Lemma batches_step (r : Z) :
  BatchSize cfg < r -> batches r (BatchSize cfg) = S (batches (r - BatchSize cfg) (BatchSize cfg)).
Proof.
  intros Hr. unfold batches.
  replace (r + BatchSize cfg - 1) with ((r - BatchSize cfg + BatchSize cfg - 1) + 1 * BatchSize cfg)
    by lia.
  rewrite Z.div_add by lia.
  assert (0 <= (r - BatchSize cfg + BatchSize cfg - 1) / BatchSize cfg)
    by (apply Z.div_pos; lia).
  lia.
Qed.

Lemma batches_one (r : Z) :
  0 < r <= BatchSize cfg -> batches r (BatchSize cfg) = 1%nat.
Proof.
  intros Hr. unfold batches.
  replace (r + BatchSize cfg - 1) with ((r - 1) + 1 * BatchSize cfg) by lia.
  rewrite Z.div_add, Z.div_small by lia. reflexivity.
Qed.

Lemma batches_none (r : Z) : r <= 0 -> batches r (BatchSize cfg) = 0%nat.
Proof.
  intros Hr. unfold batches.
  assert ((r + BatchSize cfg - 1) / BatchSize cfg <= 0); [|lia].
  apply Z.lt_succ_r. apply Z.div_lt_upper_bound; lia.
Qed.

(** The batch loop, from a state in which the chunks before [i] are
    embedded, embeds the rest. *)
Lemma CreateEmbeddings_loop_embeds (chunks0 : list Chunk) (fuel : nat) :
  Z.of_nat (length chunks0) < 2 ^ 62 ->
  forall (i : Z) (cur : list Chunk) (n : nat),
    0 <= i <= Z.of_nat (length chunks0) ->
    i = 0 \/ BatchSize cfg < Z.of_nat (length chunks0) ->
    embedded f (Z.to_nat i) chunks0 cur ->
    (Z.to_nat (Z.of_nat (length chunks0) - i) < fuel)%nat ->
    exists out,
      CreateEmbeddings_loop cfg fuel (map Content chunks0) i cur n
      = Some (Ok out, (n + batches (Z.of_nat (length chunks0) - i) (BatchSize cfg))%nat)
      /\ embedded f (length chunks0) chunks0 out.
Proof.
  intros Hlen. induction fuel as [|fu IH]; intros i cur n Hi Hinv Hemb Hf; [lia|].
  cbn [CreateEmbeddings_loop]. cbv zeta. rewrite length_map.
  destruct (i <? Z.of_nat (length chunks0)) eqn:Hlt.
  2:{ exists cur. rewrite batches_none by lia. rewrite Nat.add_0_r.
      split; [reflexivity|].
      replace (length chunks0) with (Z.to_nat i) at 1 by lia. exact Hemb. }
  apply Z.ltb_lt in Hlt.
  rewrite wrap64_id by lia.
  set (e := if i + BatchSize cfg >? Z.of_nat (length chunks0)
            then Z.of_nat (length chunks0) else i + BatchSize cfg).
  assert (He : i < e <= Z.of_nat (length chunks0) /\ e <= i + BatchSize cfg
               /\ (e < Z.of_nat (length chunks0) -> e = i + BatchSize cfg)).
  { unfold e. destruct (i + BatchSize cfg >? Z.of_nat (length chunks0)) eqn:Hg; lia. }
  clearbody e.
  rewrite slice_Some by (rewrite ?length_map; lia).
  rewrite provider.
  set (batch := take (Z.to_nat (e - i)) (drop (Z.to_nat i) (map Content chunks0))).
  assert (Hbl : length batch = Z.to_nat (e - i)).
  { unfold batch. rewrite length_take, length_drop, length_map. lia. }
  destruct Hemb as [Hl Hj].
  destruct (assign_batch (map f batch) (Z.to_nat i) cur) as (out1 & Ha & Hl1 & Hj1).
  { rewrite length_map, Hbl, Hl. lia. }
  rewrite Z2Nat.id in Ha by lia. rewrite Ha.
  assert (Hemb1 : embedded f (Z.to_nat e) chunks0 out1).
  { split; [congruence|]. intros j c Hc. rewrite Hj1, length_map, Hbl.
    pose proof (lookup_lt_Some _ _ _ Hc) as Hjl.
    destruct (decide (Z.to_nat i <= j < Z.to_nat i + Z.to_nat (e - i))%nat) as [Hin|Hout].
    - rewrite (Hj j c Hc). destruct (decide (j < Z.to_nat i)%nat) as [Hn|_]; [lia|].
      cbn [mbind option_bind]. rewrite list_lookup_fmap.
      unfold batch. rewrite lookup_take. destruct (decide _) as [_|Hn]; [|lia].
      rewrite lookup_drop, list_lookup_fmap.
      replace (Z.to_nat i + (j - Z.to_nat i))%nat with j by lia.
      rewrite Hc. cbn. destruct (decide (j < Z.to_nat e)%nat) as [_|Hn];
        [reflexivity|lia].
    - rewrite (Hj j c Hc).
      destruct (decide (j < Z.to_nat i)%nat), (decide (j < Z.to_nat e)%nat);
        try reflexivity; lia. }
  destruct (Z.lt_ge_cases (i + BatchSize cfg) (Z.of_nat (length chunks0))) as [Hmore|Hlast].
  - destruct (IH (i + BatchSize cfg) out1 (S n)) as (out & Ho & Hemb'); try lia.
    { replace (i + BatchSize cfg) with e by lia. exact Hemb1. }
    exists out. split; [|exact Hemb']. rewrite Ho. f_equal. f_equal.
    rewrite (batches_step (Z.of_nat (length chunks0) - i)) by lia.
    replace (Z.of_nat (length chunks0) - (i + BatchSize cfg))
      with (Z.of_nat (length chunks0) - i - BatchSize cfg) by lia. lia.
  - destruct fu as [|fu']; [lia|].
    cbn [CreateEmbeddings_loop]. cbv zeta. rewrite length_map.
    assert ((i + BatchSize cfg <? Z.of_nat (length chunks0)) = false) as -> by lia.
    exists out1. split.
    + rewrite (batches_one (Z.of_nat (length chunks0) - i)) by lia.
      f_equal. f_equal. lia.
    + replace (length chunks0) with (Z.to_nat e) by lia. exact Hemb1.
Qed.

End EmbedderProps.

(** With a positive batch size and a provider that answers every text
    of a request, [CreateEmbeddings] returns, has given every chunk the
    embedding of its own content and changed nothing else, and has
    called the provider once per batch. *)
Theorem CreateEmbeddings_embeds_all {deps : Deps} (cfg : Config)
    (f : list rune -> list Float.f32) (chunks : list Chunk) (n fuel : nat) :
  (forall k batch, getEmbeddings k batch = Ok (map f batch)) ->
  0 < BatchSize cfg < 2 ^ 63 ->
  Z.of_nat (length chunks) < 2 ^ 62 ->
  (length chunks < fuel)%nat ->
  CreateEmbeddings cfg fuel chunks n
  = Some (Ok (map (fun c => set_Embedding c (f (Content c))) chunks),
          (n + batches (Z.of_nat (length chunks)) (BatchSize cfg))%nat).
Proof.
  intros Hp Hb Hlen Hf. unfold CreateEmbeddings.
  destruct (CreateEmbeddings_loop_embeds cfg f Hp Hb chunks fuel Hlen 0 chunks n)
    as (out & Ho & Hl & Hj); try lia.
  { split; [reflexivity|]. intros j c Hc. rewrite Hc.
    destruct (decide (j < Z.to_nat 0)%nat); [lia|reflexivity]. }
  rewrite Ho, Z.sub_0_r. f_equal. f_equal. f_equal.
  apply list_eq. intros j. rewrite list_lookup_fmap.
  destruct (chunks !! j) as [c|] eqn:Hc.
  - rewrite (Hj j c Hc). pose proof (lookup_lt_Some _ _ _ Hc).
    destruct (decide (j < length chunks)%nat); [reflexivity|lia].
  - apply lookup_ge_None. apply lookup_ge_None in Hc. lia.
Qed.

Lemma CreateEmbeddings_embeds_all_witness :
  CreateEmbeddings (deps := SampleIndex.deps_ok) SampleQuery.cfg2 4 SampleQuery.three 0
  = Some (Ok (map (fun c => set_Embedding c Sample.e1) SampleQuery.three), 2%nat).
Proof.
  apply (CreateEmbeddings_embeds_all (deps := SampleIndex.deps_ok) SampleQuery.cfg2
           (fun _ => Sample.e1) SampleQuery.three 0 4).
  - intros k batch. reflexivity.
  - split; reflexivity.
  - reflexivity.
  - simpl. lia.
Defined.

(** Nothing checks the batch size.  With a batch size of 0 and a
    provider that answers an empty request with no embedding, the loop
    over a nonempty list of chunks never ends; with a negative batch size
    a slice expression is out of range before any provider call. *)
Theorem CreateEmbeddings_nonpositive_batch {deps : Deps} (cfg : Config)
    (chunks : list Chunk) (n : nat) :
  chunks <> [] -> Z.of_nat (length chunks) < 2 ^ 63 ->
  (BatchSize cfg = 0 -> (forall k, getEmbeddings k [] = Ok []) ->
     forall fuel, CreateEmbeddings cfg fuel chunks n = None)
  /\ (- 2 ^ 63 <= BatchSize cfg < 0 ->
      forall fuel, (0 < fuel)%nat ->
        CreateEmbeddings cfg fuel chunks n = Some (Panic, n)).
Proof.
  intros Hne Hlen.
  assert (Hpos : 0 < Z.of_nat (length (map Content chunks))).
  { rewrite length_map. destruct chunks; [congruence|cbn [length]; lia]. }
  split.
  - intros Hb Hp fuel. unfold CreateEmbeddings.
    generalize chunks at 2 as cur. revert n.
    induction fuel as [|fu IH]; intros n cur; [reflexivity|].
    cbn [CreateEmbeddings_loop]. cbv zeta. rewrite Hb.
    assert ((0 <? Z.of_nat (length (map Content chunks))) = true) as -> by lia.
    change (wrap64 (0 + 0)) with 0.
    assert ((0 >? Z.of_nat (length (map Content chunks))) = false) as -> by lia.
    rewrite slice_Some by lia. change (Z.to_nat (0 - 0)) with 0%nat. rewrite take_0, Hp.
    cbn [assign]. apply IH.
  - intros Hb fuel Hf. destruct fuel as [|fu]; [lia|].
    unfold CreateEmbeddings. cbn [CreateEmbeddings_loop]. cbv zeta.
    assert ((0 <? Z.of_nat (length (map Content chunks))) = true) as -> by lia.
    rewrite Z.add_0_l, wrap64_id by lia.
    assert ((BatchSize cfg >? Z.of_nat (length (map Content chunks))) = false) as -> by lia.
    rewrite slice_backwards by lia. reflexivity.
Qed.

Lemma CreateEmbeddings_nonpositive_batch_witness :
  (forall fuel,
     CreateEmbeddings (deps := SampleIndex.deps_ok) SampleQuery.cfg0 fuel SampleQuery.three 0
     = None)
  /\ CreateEmbeddings (deps := SampleIndex.deps_ok) SampleQuery.cfg_neg 1 SampleQuery.three 0
     = Some (Panic, 0%nat).
Proof.
  destruct (CreateEmbeddings_nonpositive_batch (deps := SampleIndex.deps_ok)
              SampleQuery.cfg0 SampleQuery.three 0) as [H0 _];
    [discriminate|reflexivity|].
  destruct (CreateEmbeddings_nonpositive_batch (deps := SampleIndex.deps_ok)
              SampleQuery.cfg_neg SampleQuery.three 0) as [_ Hn];
    [discriminate|reflexivity|].
  split.
  - apply H0; [reflexivity|]. intros k. reflexivity.
  - apply Hn; [split; [discriminate|reflexivity]|lia].
Defined.

(** Under a configuration [Validate] accepts, [Retrieve] returns the
    error of the embedding call when that call fails or gives no
    embedding, and otherwise at most [TopK] results, each built from a
    chunk of the mirror whose score reaches the threshold; it never runs
    into a slice bound. *)
Theorem Retrieve_validated {deps : Deps} (c : AppConfig) (memory : gmap string Chunk)
    (visit : list (string * Chunk)) (query : list rune) (calls : nat) :
  Validate c = Ok tt -> visits memory visit ->
  match getEmbeddings calls [query] with
  | Ok (emb :: _) =>
      exists results,
        Retrieve (Retrieval c) visit query calls = Ok results
        /\ Z.of_nat (length results) <= TopK (Retrieval c)
        /\ forall r, r ∈ results ->
             exists k ch, memory !! k = Some ch
               /\ qualifies emb (SimilarityThreshold (Retrieval c)) ch
               /\ r = result_of emb ch
  | Ok [] =>
      Retrieve (Retrieval c) visit query calls
      = Err "failed to create query embedding: no embeddings returned"
  | Err e =>
      Retrieve (Retrieval c) visit query calls
      = Err ("failed to create query embedding: " +:+ e)
  | Panic => Retrieve (Retrieval c) visit query calls = Panic
  end.
Proof.
  intros Hv Hvis.
  assert (Hk : 0 < TopK (Retrieval c)).
  { unfold Validate in Hv.
    destruct (String.eqb (WakeWord_Word c) ""); [discriminate|].
    destruct (String.eqb (Context_Folder c) ""); [discriminate|].
    destruct (_ && _); [discriminate|].
    destruct (TopK (Retrieval c) <=? 0) eqn:Hle; [discriminate|]. lia. }
  unfold Retrieve, CreateEmbedding.
  destruct (getEmbeddings calls [query]) as [[|emb rest]|e|]; try reflexivity.
  rewrite Search_nonneg by lia. eexists. split; [reflexivity|]. split.
  - rewrite length_take. lia.
  - intros r Hr. apply elem_of_take in Hr. destruct Hr as (i & Hi & _).
    apply list_elem_of_lookup_2 in Hi. rewrite sort_Slice_Permutation in Hi.
    apply elem_of_candidates in Hi. destruct Hi as (k & ch & Hkc & Hq & ->).
    exists k, ch. split; [|split; [exact Hq|reflexivity]].
    apply (visits_lookup memory visit k ch Hvis). exact Hkc.
Qed.

Lemma Retrieve_validated_witness :
  exists results,
    Retrieve (deps := SampleIndex.deps_ok) (Retrieval SampleQuery.app)
      Sample.visit_abc [104; 105] 0 = Ok results
    /\ Z.of_nat (length results) <= 2.
Proof.
  pose proof (Retrieve_validated (deps := SampleIndex.deps_ok) SampleQuery.app
                Sample.memory3 Sample.visit_abc [104; 105] 0 eq_refl (proj1 Sample_visits)) as H.
  cbn [getEmbeddings SampleIndex.deps_ok map] in H.
  destruct H as (results & Hr & Hl & _). exists results. split; assumption.
Defined.


(** ** Further properties of the indexer *)

Section IndexerMore.
Context {deps : Deps}.
Variable cfg : Config.

(** [reindex] parses once, whatever comes of it. *)
Lemma reindex_parses (fuel : nat) (w : World) (idx : Indexer) (filePath : string)
    (r : outcome (list Chunk)) (idx' : Indexer) :
  reindex cfg fuel w idx filePath = Some (r, idx') ->
  n_parse idx' = S (n_parse idx) /\ (is_Ok r = true -> n_chunk idx' = S (n_chunk idx)).
Proof.
  unfold reindex. intros H.
  destruct (ParseDocument w filePath) as [doc|e|];
    [|injection H as <- <-; split; [reflexivity|discriminate]..].
  destruct (ChunkDocument chunkRecursive fuel (Chunking cfg) doc) as [[chunks0|e|]|];
    [|injection H as <- <-; split; [reflexivity|discriminate]..|discriminate].
  destruct (Nat.eqb (length chunks0) 0);
    [injection H as <- <-; split; [reflexivity|discriminate]|].
  destruct (CreateEmbeddings cfg fuel chunks0 _) as [[[chunks|e|] n]|];
    [|injection H as <- <-; split; [reflexivity|discriminate]..|discriminate].
  destruct (cacheDocument w _ doc chunks) as [o disk].
  injection H as <- <-. split; reflexivity.
Qed.

(** The two files of a cache entry have different names. *)
Lemma doc_file_chunks_file (id : string) : doc_file id <> chunks_file id.
Proof.
  unfold doc_file, chunks_file. induction id as [|a id IH]; simpl.
  - discriminate.
  - intros H. injection H as H. apply IH, H.
Qed.

End IndexerMore.

(** A call of [IndexFile] that does not return a chunk set leaves the
    on-disk cache and the in-process map of documents as they were,
    whatever made it fail. *)
Theorem IndexFile_failure_keeps_caches {deps : Deps} (cfg : Config) (fuel : nat)
    (w : World) (idx : Indexer) (filePath : string) (forceReindex : bool)
    (r : outcome (list Chunk)) (idx' : Indexer) :
  IndexFile cfg fuel w idx filePath forceReindex = Some (r, idx') ->
  is_Ok r = false ->
  docCache idx' = docCache idx /\ diskCache idx' = diskCache idx.
Proof.
  intros H Hr.
  assert (Hcases : reindex cfg fuel w idx filePath = Some (r, idx') \/ idx' = idx).
  { unfold IndexFile in H. destruct forceReindex; [left; exact H|].
    destruct (needsReindex w idx filePath) as [[cached|] []]; try (left; exact H).
    right. injection H as _ <-. reflexivity. }
  destruct Hcases as [Hre| ->]; [|split; reflexivity].
  destruct (reindex_inv cfg fuel w idx filePath r idx' Hre)
    as [(_ & Hd & Hk)|(doc & c0 & c & _ & _ & _ & -> & _)]; [|discriminate].
  split; assumption.
Qed.

Lemma IndexFile_failure_keeps_caches_witness :
  exists idx',
    IndexFile (deps := SampleIndex.deps_ok) SampleIndex.cfg 10
      (SampleIndex.world "abcde" 1 true) SampleIndex.fresh "/ctx/notes.docx" true
    = Some (Err "failed to parse document: unsupported file type: .docx", idx')
    /\ docCache idx' = ∅ /\ diskCache idx' = ∅.
Proof.
  assert (H : IndexFile (deps := SampleIndex.deps_ok) SampleIndex.cfg 10
                (SampleIndex.world "abcde" 1 true) SampleIndex.fresh "/ctx/notes.docx" true
              = Some (Err "failed to parse document: unsupported file type: .docx",
                      mkIndexer ∅ ∅ 1 0 0)) by (vm_compute; reflexivity).
  eexists. split; [exact H|].
  apply (IndexFile_failure_keeps_caches (deps := SampleIndex.deps_ok) SampleIndex.cfg 10
           (SampleIndex.world "abcde" 1 true) SampleIndex.fresh "/ctx/notes.docx" true
           _ _ H). reflexivity.
Defined.

(** With a document recorded for the path and the file in place,
    [needsReindex] hands back that document, and asks for no reindexing
    exactly when the digest of the file is the recorded one and the file
    is not newer than recorded: a different digest or a later
    modification time is each enough. *)
Theorem needsReindex_policy {deps : Deps} (w : World) (idx : Indexer) (filePath : string)
    (cached : Document) (f : File) :
  docCache idx !! filePath = Some cached ->
  fs w !! filePath = Some f ->
  fst (needsReindex w idx filePath) = Some cached
  /\ (snd (needsReindex w idx filePath) = false
      <-> FileHash_bytes (f_bytes f) = doc_Hash cached
          /\ f_mtime f <= doc_FileModTime cached).
Proof.
  intros Hc Hf. unfold needsReindex. rewrite Hc, Hf.
  destruct (String.eqb (FileHash_bytes (f_bytes f)) (doc_Hash cached)) eqn:Hh; simpl.
  - apply String.eqb_eq in Hh.
    destruct (f_mtime f >? doc_FileModTime cached) eqn:Ht; simpl.
    + split; [reflexivity|]. split; [discriminate|]. intros [_ Hle]. lia.
    + split; [reflexivity|]. split; [|reflexivity]. intros _. split; [exact Hh|lia].
  - apply String.eqb_neq in Hh. split; [reflexivity|].
    split; [discriminate|]. intros [He _]. contradiction.
Qed.

Lemma needsReindex_policy_witness :
  snd (needsReindex (deps := SampleIndex.deps_ok) (SampleIndex.world "abcde" 1 true)
         (indexer SampleIndex.after_first) SampleIndex.path) = false
  /\ snd (needsReindex (deps := SampleIndex.deps_ok) (SampleIndex.world "abcde" 2 true)
            (indexer SampleIndex.after_first) SampleIndex.path) <> false.
Proof.
  assert (Hc : exists d, docCache (indexer SampleIndex.after_first) !! SampleIndex.path = Some d
                 /\ doc_Hash d = "h-abcde" /\ doc_FileModTime d = 1).
  { eexists. split; [vm_compute; reflexivity|]. split; reflexivity. }
  destruct Hc as (d & Hd & Hh & Ht).
  split.
  - apply (needsReindex_policy (deps := SampleIndex.deps_ok) (SampleIndex.world "abcde" 1 true)
             (indexer SampleIndex.after_first) SampleIndex.path d (mkFile "abcde" 1) Hd eq_refl).
    rewrite Hh, Ht. split; [reflexivity|simpl; lia].
  - intros H.
    apply (needsReindex_policy (deps := SampleIndex.deps_ok) (SampleIndex.world "abcde" 2 true)
             (indexer SampleIndex.after_first) SampleIndex.path d (mkFile "abcde" 2) Hd eq_refl)
      in H.
    destruct H as [_ H]. rewrite Ht in H. simpl in H. lia.
Defined.

(** The cache is keyed by content.  After a file was indexed and its
    cache entry written, a second file with the same bytes, not newer
    than the first and not yet known to the indexer, is served the chunk
    set of the first file, as it is, without being parsed; it is not
    recorded in the in-process map. *)
Theorem IndexFile_content_reuse {deps : Deps} (cfg : Config) (fuel : nat) (w : World)
    (idx : Indexer) (path1 path2 : string) (f1 f2 : File)
    (chunks : list Chunk) (idx1 : Indexer) :
  IndexFile cfg fuel w idx path1 true = Some (Ok chunks, idx1) ->
  mkdir_ok w = true -> (forall name, can_create w name = true) ->
  fs w !! path1 = Some f1 -> fs w !! path2 = Some f2 ->
  f_bytes f2 = f_bytes f1 -> f_mtime f2 <= f_mtime f1 ->
  docCache idx1 !! path2 = None ->
  forall fuel2,
    IndexFile cfg fuel2 w idx1 path2 false = Some (Ok chunks, idx1).
Proof.
  intros H Hm Hc Hf1 Hf2 Hb Ht Hnew fuel2. unfold IndexFile in H.
  destruct (reindex_inv cfg fuel w idx path1 _ idx1 H)
    as [(Hno & _)|(doc & c0 & c & Hp & _ & _ & Hr & Hdoc & Hdisk)]; [discriminate|].
  injection Hr as <-.
  destruct (ParseDocument_Ok w path1 doc Hp) as (f & Hf & Hid & Hh & Hmt & _).
  rewrite Hf1 in Hf. injection Hf as <-.
  rewrite (cacheDocument_writable w _ doc chunks Hm Hc) in Hdisk. simpl in Hdisk.
  assert (Hload : loadCachedDocument w idx1 path2 = Some doc).
  { unfold loadCachedDocument, FileHash. rewrite Hf2, Hb, <- Hid, Hdisk.
    rewrite lookup_insert_ne by (apply not_eq_sym, doc_file_chunks_file).
    rewrite lookup_insert_eq. reflexivity. }
  assert (Hn : needsReindex w idx1 path2 = (Some doc, false)).
  { unfold needsReindex. rewrite Hnew, Hload, Hf2, Hb, Hh, Hmt.
    rewrite String.eqb_refl. simpl.
    assert ((f_mtime f2 >? f_mtime f1) = false) as -> by lia. reflexivity. }
  unfold IndexFile. rewrite Hn. unfold loadCachedChunks.
  rewrite Hdisk, lookup_insert_eq. reflexivity.
Qed.

Lemma IndexFile_content_reuse_witness :
  exists chunks idx1,
    IndexFile (deps := SampleIndex.deps_ok) SampleIndex.cfg 10 SampleFolder.twins
      SampleIndex.fresh "/ctx/a.txt" true = Some (Ok chunks, idx1)
    /\ IndexFile (deps := SampleIndex.deps_ok) SampleIndex.cfg 10 SampleFolder.twins
         idx1 "/ctx/copy.txt" false = Some (Ok chunks, idx1).
Proof.
  assert (H : exists chunks idx1,
    IndexFile (deps := SampleIndex.deps_ok) SampleIndex.cfg 10 SampleFolder.twins
      SampleIndex.fresh "/ctx/a.txt" true = Some (Ok chunks, idx1)
    /\ docCache idx1 !! "/ctx/copy.txt" = None).
  { eexists _, _. split; vm_compute; reflexivity. }
  destruct H as (chunks & idx1 & H & Hnew).
  exists chunks, idx1. split; [exact H|].
  apply (IndexFile_content_reuse (deps := SampleIndex.deps_ok) SampleIndex.cfg 10
           SampleFolder.twins SampleIndex.fresh "/ctx/a.txt" "/ctx/copy.txt"
           (mkFile "abcde" 2) (mkFile "abcde" 1) chunks idx1 H);
    try reflexivity; try (vm_compute; reflexivity); try exact Hnew.
  simpl. lia.
Defined.

(** A forced [IndexFile] parses the file, whatever the caches hold; when
    it returns a chunk set it has chunked the document once, and the
    in-process map records for the path a document whose ID and hash are
    the digest of the file. *)
Theorem IndexFile_forced_parses {deps : Deps} (cfg : Config) (fuel : nat) (w : World)
    (idx : Indexer) (filePath : string) (r : outcome (list Chunk)) (idx' : Indexer) :
  IndexFile cfg fuel w idx filePath true = Some (r, idx') ->
  n_parse idx' = S (n_parse idx)
  /\ (is_Ok r = true ->
      n_chunk idx' = S (n_chunk idx)
      /\ exists doc f,
           docCache idx' !! filePath = Some doc
           /\ fs w !! filePath = Some f
           /\ doc_ID doc = FileHash_bytes (f_bytes f)
           /\ doc_Hash doc = FileHash_bytes (f_bytes f)
           /\ doc_FileModTime doc = f_mtime f).
Proof.
  unfold IndexFile. intros H.
  destruct (reindex_parses cfg fuel w idx filePath r idx' H) as [Hp Hc].
  split; [exact Hp|]. intros Hok. split; [apply Hc, Hok|].
  destruct (reindex_inv cfg fuel w idx filePath r idx' H)
    as [(Hno & _)|(doc & c0 & c & Hpd & _ & _ & _ & Hdoc & _)]; [congruence|].
  destruct (ParseDocument_Ok w filePath doc Hpd) as (f & Hf & Hid & Hh & Hmt & _).
  exists doc, f. rewrite Hdoc, lookup_insert_eq. repeat split; assumption.
Qed.

Lemma IndexFile_forced_parses_witness :
  n_parse (indexer SampleIndex.after_first) = 2%nat.
Proof.
  assert (H : exists r idx',
    IndexFile (deps := SampleIndex.deps_ok) SampleIndex.cfg 10 (SampleIndex.world "abcde" 1 true)
      (mkIndexer ∅ ∅ 1 1 2) SampleIndex.path true = Some (r, idx')
    /\ n_parse (indexer SampleIndex.after_first) = n_parse idx').
  { eexists _, _. split; vm_compute; reflexivity. }
  destruct H as (r & idx' & H & ->).
  apply (IndexFile_forced_parses (deps := SampleIndex.deps_ok) SampleIndex.cfg 10
           (SampleIndex.world "abcde" 1 true) (mkIndexer ∅ ∅ 1 1 2) SampleIndex.path r idx' H).
Defined.


(** ** Further properties of the update path *)

(** [handleFileUpdate] never hands an error to the watcher; when
    [IndexFile] fails, the store and the two caches are untouched. *)
Theorem handleFileUpdate_logs_failures {deps : Deps} {blob : Type} {codec : Codec blob}
    (cfg : Config) (fuel : nat) (w : World) (commit : bool) (sys sys' : @System blob)
    (filePath : string) (r : outcome unit) :
  handleFileUpdate cfg fuel w commit sys filePath = Some (r, sys') ->
  is_Err r = false
  /\ forall out idx1,
       IndexFile cfg fuel w (indexer sys) filePath true = Some (out, idx1) ->
       is_Ok out = false ->
       store sys' = store sys
       /\ docCache (indexer sys') = docCache (indexer sys)
       /\ diskCache (indexer sys') = diskCache (indexer sys).
Proof.
  unfold handleFileUpdate. intros H.
  destruct (IndexFile cfg fuel w (indexer sys) filePath true) as [[out idx1]|] eqn:Hi;
    [|discriminate].
  assert (Hfail : is_Ok out = false ->
            docCache idx1 = docCache (indexer sys) /\ diskCache idx1 = diskCache (indexer sys)).
  { intros Hno. unfold IndexFile in Hi.
    destruct (reindex_inv cfg fuel w (indexer sys) filePath out idx1 Hi)
      as [(_ & Hd & Hk)|(doc & c0 & c & _ & _ & _ & -> & _)]; [|discriminate].
    split; assumption. }
  destruct out as [chunks|e|].
  - destruct (AddChunks commit (store sys) chunks) as [o vs]. injection H as <- <-.
    split; [reflexivity|]. intros out idx2 [= <- <-]. discriminate.
  - injection H as <- <-. split; [reflexivity|].
    intros out idx2 [= <- <-] _. cbn [store indexer].
    destruct (Hfail eq_refl) as [Hd Hk]. repeat split; assumption.
  - injection H as <- <-. split; [reflexivity|].
    intros out idx2 [= <- <-] _. cbn [store indexer].
    destruct (Hfail eq_refl) as [Hd Hk]. repeat split; assumption.
Qed.

Lemma handleFileUpdate_logs_failures_witness :
  exists sys',
    handleFileUpdate (deps := SampleIndex.deps_ok) (codec := plain_codec) SampleIndex.cfg 10
      (SampleIndex.world "abcde" 1 true) true SampleIndex.after_first "/ctx/gone.txt"
    = Some (Ok tt, sys')
    /\ store sys' = store SampleIndex.after_first.
Proof.
  assert (H : exists sys' idx1,
    handleFileUpdate (deps := SampleIndex.deps_ok) (codec := plain_codec) SampleIndex.cfg 10
      (SampleIndex.world "abcde" 1 true) true SampleIndex.after_first "/ctx/gone.txt"
    = Some (Ok tt, sys')
    /\ IndexFile (deps := SampleIndex.deps_ok) SampleIndex.cfg 10
         (SampleIndex.world "abcde" 1 true) (indexer SampleIndex.after_first)
         "/ctx/gone.txt" true
       = Some (Err "failed to parse document: failed to open file", idx1)).
  { eexists _, _. split; vm_compute; reflexivity. }
  destruct H as (sys' & idx1 & H & Hi). exists sys'. split; [exact H|].
  destruct (handleFileUpdate_logs_failures (deps := SampleIndex.deps_ok) (codec := plain_codec)
              SampleIndex.cfg 10 (SampleIndex.world "abcde" 1 true) true
              SampleIndex.after_first sys' "/ctx/gone.txt" (Ok tt) H) as [_ Hs].
  apply (Hs _ idx1 Hi eq_refl).
Defined.

(** Whatever happens, [handleFileUpdate] removes no key from the bucket
    or from the mirror: the update path only adds. *)
Theorem handleFileUpdate_only_adds {deps : Deps} {blob : Type} {codec : Codec blob}
    (cfg : Config) (fuel : nat) (w : World) (commit : bool) (sys sys' : @System blob)
    (filePath : string) (r : outcome unit) (k : string) :
  handleFileUpdate cfg fuel w commit sys filePath = Some (r, sys') ->
  (is_Some (memory (store sys) !! k) -> is_Some (memory (store sys') !! k))
  /\ (is_Some (db (store sys) !! k) -> is_Some (db (store sys') !! k)).
Proof.
  unfold handleFileUpdate. intros H.
  destruct (IndexFile cfg fuel w (indexer sys) filePath true) as [[[chunks|e|] idx1]|];
    [|injection H as <- <-; split; auto..|discriminate].
  unfold AddChunks in H.
  destruct (AddChunks_loop chunks (db (store sys)) (memory (store sys))) as [[err b'] m'] eqn:Hl.
  destruct (AddChunks_loop_lookup chunks _ _ _ _ _ Hl k) as (Hm & Hb & _).
  destruct err as [e|]; [|destruct commit]; injection H as <- <-; cbn [store memory db];
    split; auto.
Qed.

Lemma handleFileUpdate_only_adds_witness :
  exists sys',
    handleFileUpdate (deps := SampleIndex.deps_ok) (codec := plain_codec) SampleIndex.cfg 10
      (SampleIndex.world "vwxyz" 2 true) true SampleIndex.after_first SampleIndex.path
    = Some (Ok tt, sys')
    /\ is_Some (memory (store sys') !! "h-abcde_0")
    /\ is_Some (db (store sys') !! "h-abcde_0").
Proof.
  assert (H : exists sys',
    handleFileUpdate (deps := SampleIndex.deps_ok) (codec := plain_codec) SampleIndex.cfg 10
      (SampleIndex.world "vwxyz" 2 true) true SampleIndex.after_first SampleIndex.path
    = Some (Ok tt, sys')).
  { eexists. vm_compute. reflexivity. }
  destruct H as (sys' & H). exists sys'. split; [exact H|].
  destruct (handleFileUpdate_only_adds (deps := SampleIndex.deps_ok) (codec := plain_codec)
              SampleIndex.cfg 10 (SampleIndex.world "vwxyz" 2 true) true
              SampleIndex.after_first sys' SampleIndex.path (Ok tt) "h-abcde_0" H)
    as [Hm Hb].
  split; [apply Hm|apply Hb]; vm_compute; eauto.
Defined.



(** ** Walking the context folder *)

Section DirectoryProps.
Context {deps : Deps}.
Variable cfg : Config.


End DirectoryProps.




(** ** Recursive chunking *)

Section RecursiveProps.

Lemma utf8_len_pos (r : rune) : 0 < utf8_len r.
Proof.
  unfold utf8_len.
  destruct (r <? 0); [lia|]. destruct (r <? 128); [lia|].
  destruct (r <? 2048); [lia|]. destruct (r <? 65536); [lia|].
  destruct (r <=? 1114111); lia.
Qed.

Lemma byte_len_nonneg (s : list rune) : 0 <= byte_len s.
Proof.
  induction s as [|r s IH]; simpl; [lia|]. pose proof (utf8_len_pos r). lia.
Qed.

(** A string of no bytes is the empty string. *)
Lemma byte_len_zero (s : list rune) : (byte_len s >? 0) = false -> s = [].
Proof.
  destruct s as [|r s]; [reflexivity|]. simpl.
  pose proof (utf8_len_pos r). pose proof (byte_len_nonneg s). lia.
Qed.

Lemma Split_nonspace_upto (n : nat) :
  forall text current, (length text <= n)%nat ->
    nonspace (concat (Recursive.Split text current)) = nonspace current ++ nonspace text.
Proof.
  induction n as [|n IH]; intros text current Hn.
  - destruct text; [|simpl in Hn; lia]. simpl. rewrite !app_nil_r. reflexivity.
  - destruct text as [|r rest]; [simpl; rewrite !app_nil_r; reflexivity|].
    cbn [length] in Hn. cbn [Recursive.Split]. destruct rest as [|r' rest'].
    + rewrite IH by (simpl; lia). rewrite <- !nonspace_app, <- app_assoc. reflexivity.
    + destruct ((r =? 10) && (r' =? 10)) eqn:Hnl.
      * apply andb_prop in Hnl. destruct Hnl as [H1 H2].
        apply Z.eqb_eq in H1, H2. subst r r'.
        cbn [concat]. rewrite nonspace_app, IH by (cbn [length] in Hn; lia). reflexivity.
      * rewrite IH by lia. rewrite <- !nonspace_app, <- app_assoc. reflexivity.
Qed.

(** Splitting into paragraphs loses only line breaks. *)
Lemma Split_nonspace (text : list rune) :
  nonspace (concat (Recursive.Split text [])) = nonspace text.
Proof. apply (Split_nonspace_upto (length text)). reflexivity. Qed.

Lemma held_emit (doc : Document) (chunks : list Chunk) (current : list rune) :
  held (Recursive.emit doc chunks current, []) = held (chunks, current).
Proof.
  unfold held, Recursive.emit. cbn [fst snd].
  rewrite map_app, concat_app, nonspace_app. cbn [map concat new_chunk Content].
  rewrite !app_nil_r, nonspace_TrimSpace. reflexivity.
Qed.

Lemma held_append (chunks : list Chunk) (current more : list rune) :
  held (chunks, current ++ more) = held (chunks, current) ++ nonspace more.
Proof.
  unfold held. cbn [fst snd]. rewrite nonspace_app, app_assoc. reflexivity.
Qed.

Lemma add_sentence_held (doc : Document) (size overlap : Z)
    (st : list Chunk * list rune) (sent : list rune) :
  overlap < 10 ->
  held (Recursive.add_sentence doc size overlap st sent) = held st ++ nonspace sent.
Proof.
  intros Ho. destruct st as [chunks current]. unfold Recursive.add_sentence.
  destruct ((byte_len current + byte_len sent >? size) && (byte_len current >? 0)).
  - assert (Hq : Z.quot overlap 10 <= 0).
    { destruct (Z.le_gt_cases 0 overlap) as [Hp|Hn].
      - rewrite Z.quot_small by lia. lia.
      - apply Z.quot_le_upper_bound; lia. }
    set (words := Recursive.Fields current).
    assert (Hw : ((if Z.quot overlap 10 >? Z.of_nat (length words)
                   then Z.of_nat (length words) else Z.quot overlap 10) >? 0) = false).
    { destruct (Z.quot overlap 10 >? Z.of_nat (length words)) eqn:Hg; lia. }
    rewrite Hw. rewrite held_append, held_emit.
    rewrite nonspace_app. cbn [nonspace List.filter isSpace]. rewrite app_nil_r.
    reflexivity.
  - rewrite held_append, nonspace_app. cbn [nonspace List.filter isSpace].
    rewrite app_nil_r. reflexivity.
Qed.

Lemma add_sentences_held (doc : Document) (size overlap : Z) (sentences : list (list rune)) :
  overlap < 10 ->
  forall st,
    held (fold_left (Recursive.add_sentence doc size overlap) sentences st)
    = held st ++ nonspace (concat sentences).
Proof.
  intros Ho. induction sentences as [|s rest IH]; intros st.
  - simpl. rewrite app_nil_r. reflexivity.
  - cbn [fold_left concat]. rewrite IH, add_sentence_held by exact Ho.
    rewrite nonspace_app, app_assoc. reflexivity.
Qed.

Lemma add_paragraph_held (doc : Document) (size overlap : Z)
    (st : list Chunk * list rune) (para : list rune) :
  overlap < 10 ->
  held (Recursive.add_paragraph doc size overlap st para) = held st ++ nonspace para.
Proof.
  intros Ho. unfold Recursive.add_paragraph.
  destruct (Nat.eqb (length (TrimSpace para)) 0) eqn:He.
  - apply Nat.eqb_eq in He. apply length_zero_iff_nil in He.
    rewrite <- (nonspace_TrimSpace para), He. cbn. rewrite app_nil_r. reflexivity.
  - destruct (byte_len (TrimSpace para) >? size).
    + rewrite add_sentences_held by exact Ho.
      unfold splitSentences. rewrite splitSentences_loop_nonspace. cbn [concat nonspace List.filter].
      rewrite nonspace_TrimSpace. reflexivity.
    + destruct st as [chunks current].
      destruct ((byte_len current + byte_len (TrimSpace para) >? size)
                && (byte_len current >? 0)).
      * rewrite held_append, held_emit, nonspace_app, nonspace_TrimSpace.
        cbn [nonspace List.filter isSpace]. rewrite app_nil_r.
        unfold held. cbn [fst snd]. reflexivity.
      * rewrite held_append, nonspace_app, nonspace_TrimSpace.
        cbn [nonspace List.filter isSpace]. rewrite app_nil_r. reflexivity.
Qed.

Lemma add_paragraphs_held (doc : Document) (size overlap : Z) (paras : list (list rune)) :
  overlap < 10 ->
  forall st,
    held (fold_left (Recursive.add_paragraph doc size overlap) paras st)
    = held st ++ nonspace (concat paras).
Proof.
  intros Ho. induction paras as [|p rest IH]; intros st.
  - simpl. rewrite app_nil_r. reflexivity.
  - cbn [fold_left concat]. rewrite IH, add_paragraph_held by exact Ho.
    rewrite nonspace_app, app_assoc. reflexivity.
Qed.

Lemma numbered_emit (doc : Document) (chunks : list Chunk) (current0 current rest : list rune) :
  numbered doc (chunks, current0) -> numbered doc (Recursive.emit doc chunks current, rest).
Proof.
  unfold numbered, Recursive.emit. cbn [fst]. intros H k c Hk.
  apply lookup_app_Some in Hk. destruct Hk as [Hk|[Hge Hk]]; [apply H, Hk|].
  apply list_lookup_singleton_Some in Hk. destruct Hk as [Hz <-].
  replace k with (length chunks) by lia. apply new_chunk_fresh.
Qed.

Lemma add_sentence_numbered (doc : Document) (size overlap : Z)
    (st : list Chunk * list rune) (sent : list rune) :
  numbered doc st -> numbered doc (Recursive.add_sentence doc size overlap st sent).
Proof.
  destruct st as [chunks current]. unfold Recursive.add_sentence. intros H.
  destruct ((byte_len current + byte_len sent >? size) && (byte_len current >? 0)).
  - eapply numbered_emit. exact H.
  - exact H.
Qed.

Lemma add_paragraph_numbered (doc : Document) (size overlap : Z)
    (st : list Chunk * list rune) (para : list rune) :
  numbered doc st -> numbered doc (Recursive.add_paragraph doc size overlap st para).
Proof.
  unfold Recursive.add_paragraph. intros H.
  destruct (Nat.eqb (length (TrimSpace para)) 0); [exact H|].
  destruct (byte_len (TrimSpace para) >? size).
  - generalize (splitSentences (TrimSpace para)). intros sentences. revert st H.
    induction sentences as [|s rest IH]; intros st H; [exact H|].
    cbn [fold_left]. apply IH, add_sentence_numbered, H.
  - destruct st as [chunks current].
    destruct ((byte_len current + byte_len (TrimSpace para) >? size)
              && (byte_len current >? 0)).
    + eapply numbered_emit. exact H.
    + exact H.
Qed.

End RecursiveProps.

(** [chunkRecursive] numbers its chunks from 0 in order; each carries
    the document's ID and the metadata of its position, has no ID and no
    embedding yet, and a content without white space at either end. *)
Theorem chunkRecursive_fresh (doc : Document) (text : list rune) (size overlap : Z)
    (k : nat) (c : Chunk) :
  Recursive.chunkRecursive doc text size overlap !! k = Some c ->
  fresh_chunk doc k c.
Proof.
  unfold Recursive.chunkRecursive.
  assert (Hall : forall paras st, numbered doc st ->
            numbered doc (fold_left (Recursive.add_paragraph doc size overlap) paras st)).
  { induction paras as [|p rest IH]; intros st H; [exact H|].
    cbn [fold_left]. apply IH, add_paragraph_numbered, H. }
  assert (H0 : numbered doc ([], [])).
  { intros k' c' Hk. cbn [fst] in Hk. rewrite lookup_nil in Hk. discriminate. }
  specialize (Hall (Recursive.Split text []) _ H0).
  destruct (fold_left _ _ _) as [chunks current].
  destruct (byte_len current >? 0).
  - intros Hk. exact (numbered_emit doc chunks current current [] Hall k c Hk).
  - intros Hk. exact (Hall k c Hk).
Qed.

Lemma chunkRecursive_fresh_witness :
  fresh_chunk SampleParagraphs.doc 1 (new_chunk SampleParagraphs.doc [101; 102] 1).
Proof.
  apply (chunkRecursive_fresh SampleParagraphs.doc SampleParagraphs.text 6 0).
  vm_compute. reflexivity.
Defined.

(** With [overlap < 10] (no word is carried over from one chunk to the
    next, the overlap being counted in tens), recursive chunking loses no
    code point other than white space and repeats none: the contents of
    its chunks, joined and stripped of white space, are the text stripped
    of white space. *)
Theorem chunkRecursive_keeps_text (doc : Document) (text : list rune) (size overlap : Z) :
  overlap < 10 ->
  nonspace (concat (map Content (Recursive.chunkRecursive doc text size overlap)))
  = nonspace text.
Proof.
  intros Ho. unfold Recursive.chunkRecursive.
  assert (H : held (fold_left (Recursive.add_paragraph doc size overlap)
                      (Recursive.Split text []) ([], []))
              = nonspace text).
  { rewrite add_paragraphs_held by exact Ho. rewrite Split_nonspace. reflexivity. }
  destruct (fold_left _ _ _) as [chunks current].
  destruct (byte_len current >? 0) eqn:Hb.
  - rewrite <- H, <- (held_emit doc chunks current). unfold held. cbn [fst snd].
    change (nonspace []) with ([] : list rune). rewrite app_nil_r. reflexivity.
  - apply byte_len_zero in Hb. subst current. rewrite <- H. unfold held. cbn [fst snd].
    change (nonspace []) with ([] : list rune). rewrite app_nil_r. reflexivity.
Qed.

Lemma chunkRecursive_keeps_text_witness :
  contents_of (Some (Ok (Recursive.chunkRecursive SampleParagraphs.doc
                           SampleParagraphs.text 6 0)))
  = Some [[97; 98; 32; 99; 100]; [101; 102]]
  /\ nonspace (concat [[97; 98; 32; 99; 100]; [101; 102]]) = nonspace SampleParagraphs.text.
Proof.
  assert (H : map Content (Recursive.chunkRecursive SampleParagraphs.doc
                             SampleParagraphs.text 6 0)
              = [[97; 98; 32; 99; 100]; [101; 102]]) by (vm_compute; reflexivity).
  split; [cbn [contents_of]; rewrite H; reflexivity|].
  rewrite <- H.
  apply (chunkRecursive_keeps_text SampleParagraphs.doc SampleParagraphs.text 6 0). lia.
Defined.

